(** * Markdown serializer of ProseMirror ([src/markdown/to_markdown.js])

    A shallow embedding of [MarkdownSerializer] and of the per-node-type
    [serializeMarkdown] methods, followed by the properties of the
    serializer that the specification states.

    Conventions of the embedding.
    - A JavaScript string is a [string]; a character is a code unit
      below 256.
    - The serializer object is a record [MarkdownSerializer]; a method
      that mutates [this] is a function from the record to the record.
    - An attribute that may be absent ([undefined]) is an [option].
    - A callback argument (the [f] of [wrapBlock], the [firstDelim] of
      [renderList]) is a function argument. *)

From Stdlib Require Import String Ascii List Bool Arith PeanoNat NArith ZArith Lia.
From Stdlib Require Import Permutation.
Import ListNotations.
Open Scope string_scope.

(* ================================================================= *)
(** ** Characters and string helpers of the JavaScript runtime *)

Definition LF : ascii := "010"%char.
Definition DQUOTE : ascii := "034"%char.
Definition SQUOTE : ascii := "039"%char.
Definition BACKSLASH : ascii := "092"%char.

Definition nl : string := String LF "".

(** Membership of a character in a character class written as a string. *)
Fixpoint inClass (cls : string) (c : ascii) : bool :=
  match cls with
  | "" => false
  | String d rest => Ascii.eqb c d || inClass rest c
  end.

(** The class [\s] of a JavaScript regular expression, restricted to code
    units below 256: tab, line feed, vertical tab, form feed, carriage
    return, space and no-break space. *)
Definition isSpace (c : ascii) : bool :=
  match nat_of_ascii c with
  | 9 | 10 | 11 | 12 | 13 | 32 | 160 => true
  | _ => false
  end.

Fixpoint allSpace (s : string) : bool :=
  match s with
  | "" => true
  | String c rest => isSpace c && allSpace rest
  end.

(** [/\s+$/.exec(s)]: the leftmost (hence longest) non-empty run of
    whitespace that reaches the end of [s]; [None] is [null]. *)
Fixpoint execTrailingSpace (s : string) : option string :=
  match s with
  | "" => None
  | String c rest =>
      if allSpace s then Some s else execTrailingSpace rest
  end.

(** [s.slice(0, n)] for [0 <= n]. *)
Definition sliceTo (n : nat) (s : string) : string := substring 0 n s.

(** [s.split("\n")]. *)
Fixpoint splitLines (s : string) : list string :=
  match s with
  | "" => [""]
  | String c rest =>
      if Ascii.eqb c LF then "" :: splitLines rest
      else match splitLines rest with
           | h :: t => String c h :: t
           | [] => [String c ""]
           end
  end.

(** [s.replace(/[cls]/g, "\\$&")]: every character of the class is
    replaced by a backslash followed by itself. *)
Fixpoint replaceAllClass (cls : string) (s : string) : string :=
  match s with
  | "" => ""
  | String c rest =>
      if inClass cls c then String BACKSLASH (String c (replaceAllClass cls rest))
      else String c (replaceAllClass cls rest)
  end.

(** [s.replace(/^[cls]/, "\\$&")]: only a match at offset 0 is replaced. *)
Definition replaceLeadingClass (cls : string) (s : string) : string :=
  match s with
  | "" => ""
  | String c rest => if inClass cls c then String BACKSLASH s else s
  end.

(** [s.indexOf(c) == -1] for a one-character needle. *)
Fixpoint lacksChar (c : ascii) (s : string) : bool :=
  match s with
  | "" => true
  | String d rest => negb (Ascii.eqb c d) && lacksChar c rest
  end.

(** Decimal digits of a natural number, most significant first; [fuel]
    bounds the number of digits produced. *)
Definition digitChar (d : N) : ascii := ascii_of_N (48 + d).

Fixpoint digitsFuel (fuel : nat) (n : N) : string :=
  match fuel with
  | O => ""
  | S fuel' =>
      if (n <? 10)%N then String (digitChar n) ""
      else digitsFuel fuel' (n / 10)%N ++ String (digitChar (n mod 10)%N) ""
  end.

(** [String(n)] for a non-negative integer [n]. *)
Definition String_ (n : N) : string := digitsFuel (S (N.size_nat n)) n.

(** *** Numbers

    The only numbers of the file are the [order] attribute of an ordered
    list, the child count and the item index. The attribute is modelled
    for integer values of magnitude at most [2^53] (the integers that a
    Markdown parser stores there and that a JavaScript number holds
    exactly); a number that is not an integer is outside the model. *)

Record SafeInteger : Type := mkSafe {
  safeValue : Z;
  safeBound : (Z.abs safeValue <=? 2 ^ 53)%Z = true
}.

(** The integer nearest to [z] that a JavaScript number holds: [z]
    itself below [2^53], else [z] rounded to 53 significant bits, a tie
    going to the even significand. *)
Definition roundToDouble (z : Z) : Z :=
  let m := Z.abs z in
  if (m <? 2 ^ 53)%Z then z
  else
    let e := (Z.log2 m - 52)%Z in
    let q := (m / 2 ^ e)%Z in
    let r := (m mod 2 ^ e)%Z in
    let half := (2 ^ (e - 1))%Z in
    let q' := if (r <? half)%Z then q
              else if (half <? r)%Z then (q + 1)%Z
              else if Z.even q then q else (q + 1)%Z in
    (Z.sgn z * (q' * 2 ^ e))%Z.

(** [a + b] on integer-valued numbers. *)
Definition jsAdd (a b : Z) : Z := roundToDouble (a + b).

(** [String(z)] for an integer-valued number [z] of magnitude below
    [2^54], which the sums of the file stay under: the decimal numeral,
    after a minus sign when [z] is negative. *)
Definition numberToString (z : Z) : string :=
  if (z <? 0)%Z then "-" ++ String_ (Z.to_N (- z)) else String_ (Z.to_N z).

(** JavaScript truthiness of an optional string: [undefined], [null] and
    the empty string are falsy. *)
Definition truthy (o : option string) : bool :=
  match o with
  | Some s => negb (s =? "")
  | None => false
  end.

(** [o || d] for an optional string [o]. *)
Definition orElse (o : option string) (d : string) : string :=
  match o with
  | Some s => if s =? "" then d else s
  | None => d
  end.

(* ================================================================= *)
(** ** The document model consumed by the serializer *)

(** Attributes of a mark ([mark.attrs]): only links carry any. *)
Record MarkAttrs : Type := mkMarkAttrs {
  href : string;
  linkTitle : option string
}.

(** [openMarkdown] and [closeMarkdown] hold either a string or a
    function from the serializer and the mark to a string. The
    serializer is passed for its pure helpers [esc] and [quote]; the
    function is modelled on the attributes of the mark. *)
Inductive Markup : Type :=
| MStr (s : string)
| MFun (f : MarkAttrs -> string).

(** A mark type. [openMarkdown], [closeMarkdown] and [markdownMixable]
    are set in the serializer's file; [isCode] is declared by the
    document model. *)
Record MarkType : Type := mkMarkType {
  markName : string;
  openMarkdown : Markup;
  closeMarkdown : Markup;
  markdownMixable : bool;
  isCode : bool
}.

Record Mark : Type := mkMark {
  markType : MarkType;
  markAttrs : MarkAttrs
}.

Inductive NodeType : Type :=
| Text | BlockQuote | OrderedList | BulletList | ListItem
| HorizontalRule | Paragraph | Heading | CodeBlock | Image | HardBreak.

(** Attributes of a node ([node.attrs]); each node type reads its own. *)
Record NodeAttrs : Type := mkNodeAttrs {
  level : nat;                 (* Heading *)
  tight : bool;                (* BulletList, OrderedList *)
  params : option string;      (* CodeBlock *)
  markup : option string;      (* HorizontalRule *)
  bullet : option string;      (* BulletList *)
  order : option SafeInteger;  (* OrderedList *)
  src : string;                (* Image *)
  alt : option string;         (* Image *)
  title : option string        (* Image *)
}.

Definition noAttrs : NodeAttrs :=
  mkNodeAttrs 0 false None None None None "" None None.

#[warnings="-register-all"]
Inductive Node : Type :=
| mkNode (type : NodeType) (attrs : NodeAttrs) (content : list Node)
         (marks : list Mark) (text : string).

Definition nodeType (n : Node) : NodeType :=
  match n with mkNode t _ _ _ _ => t end.
Definition nodeAttrs (n : Node) : NodeAttrs :=
  match n with mkNode _ a _ _ _ => a end.
Definition nodeContent (n : Node) : list Node :=
  match n with mkNode _ _ c _ _ => c end.
Definition nodeMarks (n : Node) : list Mark :=
  match n with mkNode _ _ _ m _ => m end.
Definition nodeText (n : Node) : string :=
  match n with mkNode _ _ _ _ t => t end.

Definition isText (n : Node) : bool :=
  match nodeType n with Text => true | _ => false end.

Definition nodeTypeEqb (a b : NodeType) : bool :=
  match a, b with
  | Text, Text | BlockQuote, BlockQuote | OrderedList, OrderedList
  | BulletList, BulletList | ListItem, ListItem
  | HorizontalRule, HorizontalRule | Paragraph, Paragraph
  | Heading, Heading | CodeBlock, CodeBlock | Image, Image
  | HardBreak, HardBreak => true
  | _, _ => false
  end.

Definition optStringEqb (a b : option string) : bool :=
  match a, b with
  | Some x, Some y => x =? y
  | None, None => true
  | _, _ => false
  end.

(** Modelled from the spec: [Mark.eq] of the document model, which is not
    part of the serializer's file. Two marks are equal when they have the
    same kind and the same attributes. *)
Definition markEq (a b : Mark) : bool :=
  (markName (markType a) =? markName (markType b))
  && (href (markAttrs a) =? href (markAttrs b))
  && optStringEqb (linkTitle (markAttrs a)) (linkTitle (markAttrs b)).

(** Modelled from the spec: [node.textContent] of the document model, the
    concatenated text of the node's text descendants. *)
Fixpoint textContent (n : Node) : string :=
  match n with
  | mkNode Text _ _ _ t => t
  | mkNode _ _ c _ _ =>
      (fix go (l : list Node) : string :=
         match l with
         | [] => ""
         | x :: r => textContent x ++ go r
         end) c
  end.

(* ================================================================= *)
(** ** The serializer state *)

Record Options : Type := mkOptions {
  hardBreak : option string
}.

Record MarkdownSerializer : Type := mkState {
  out : string;
  delim : string;
  closed : option Node;        (* [false] is [None] *)
  inTightList : bool;
  options : Options
}.

(** [new MarkdownSerializer(options)] *)
Definition newSerializer (opts : option Options) : MarkdownSerializer :=
  mkState "" "" None false
          (match opts with Some o => o | None => mkOptions None end).

Definition setOut (s : string) (st : MarkdownSerializer) :=
  mkState s (delim st) (closed st) (inTightList st) (options st).
Definition setDelim (d : string) (st : MarkdownSerializer) :=
  mkState (out st) d (closed st) (inTightList st) (options st).
Definition setClosed (c : option Node) (st : MarkdownSerializer) :=
  mkState (out st) (delim st) c (inTightList st) (options st).
Definition setInTightList (b : bool) (st : MarkdownSerializer) :=
  mkState (out st) (delim st) (closed st) b (options st).

(** [this.out += s] *)
Definition emit (s : string) (st : MarkdownSerializer) : MarkdownSerializer :=
  setOut (out st ++ s) st.

(** [atBlank]: the regular expression [/(^|\n)$/] matches the empty
    buffer and a buffer whose last character is a line feed. *)
Fixpoint endsBlank (s : string) : bool :=
  match s with
  | "" => true
  | String c "" => Ascii.eqb c LF
  | String _ rest => endsBlank rest
  end.

Definition atBlank (st : MarkdownSerializer) : bool := endsBlank (out st).

(** [ensureNewLine] *)
Definition ensureNewLine (st : MarkdownSerializer) : MarkdownSerializer :=
  if atBlank st then st else emit nl st.

(** The loop [for (let i = 1; i < size; i++) this.out += delimMin + "\n"],
    by the number [n] of iterations left. *)
Fixpoint emitBlankLines (n : nat) (delimMin : string)
         (st : MarkdownSerializer) : MarkdownSerializer :=
  match n with
  | O => st
  | S n' => emitBlankLines n' delimMin (emit (delimMin ++ nl) st)
  end.

(** The trimmed prefix [delimMin] computed by [flushClose]. *)
Definition trimmedDelim (d : string) : string :=
  match execTrailingSpace d with
  | Some t => sliceTo (String.length d - String.length t) d
  | None => d
  end.

(** [flushClose(size)]; an omitted [size] is [None]. *)
Definition flushClose (size : option nat)
           (st : MarkdownSerializer) : MarkdownSerializer :=
  match closed st with
  | Some _ =>
      let st := if atBlank st then st else emit nl st in
      let size := match size with None => 2 | Some n => n end in
      let st :=
        if (1 <? size)%nat then emitBlankLines (size - 1) (trimmedDelim (delim st)) st
        else st in
      setClosed None st
  | None => st
  end.

(** [write(content)]; an omitted [content] is [None]. *)
Definition write (content : option string)
           (st : MarkdownSerializer) : MarkdownSerializer :=
  let st := flushClose None st in
  let st := if negb (delim st =? "") && atBlank st then emit (delim st) st
            else st in
  if truthy content then emit (orElse content "") st else st.

(** [closeBlock(node)] *)
Definition closeBlock (node : Node)
           (st : MarkdownSerializer) : MarkdownSerializer :=
  setClosed (Some node) st.

(** [wrapBlock(delim, firstDelim, node, f)]; a [null] first-line prefix
    is [None]. *)
Definition wrapBlock (d : string) (firstDelim : option string) (node : Node)
           (f : MarkdownSerializer -> MarkdownSerializer)
           (st : MarkdownSerializer) : MarkdownSerializer :=
  let old := delim st in
  let st := write (Some (orElse firstDelim d)) st in
  let st := setDelim (delim st ++ d) st in
  let st := f st in
  let st := setDelim old st in
  closeBlock node st.

(** [esc(str, startOfLine)] *)
Definition esc (str : string) (startOfLine : bool) : string :=
  let str := replaceAllClass "`*\~+[]" str in
  if startOfLine then replaceLeadingClass ":#-" str else str.

(** [quote(str)] *)
Definition quote (str : string) : string :=
  let wrap :=
    if lacksChar DQUOTE str then (DQUOTE, DQUOTE)
    else if lacksChar SQUOTE str then (SQUOTE, SQUOTE)
    else ("("%char, ")"%char) in
  String (fst wrap) "" ++ str ++ String (snd wrap) "".

(** [repeat(str, n)] *)
Fixpoint repeat (str : string) (n : nat) : string :=
  match n with
  | O => ""
  | S n' => repeat str n' ++ str
  end.

(** [markString(mark, open)] *)
Definition markString (mark : Mark) (open : bool) : string :=
  let value := if open then openMarkdown (markType mark)
               else closeMarkdown (markType mark) in
  match value with
  | MStr s => s
  | MFun f => f (markAttrs mark)
  end.

(** The body of the loop of [text], over the lines still to write. The
    argument [escape] is [false] exactly when the caller passed [false]. *)
Fixpoint textLines (lines : list string) (escape : bool)
         (st : MarkdownSerializer) : MarkdownSerializer :=
  match lines with
  | [] => st
  | line :: rest =>
      let startOfLine :=
        atBlank st || match closed st with Some _ => true | None => false end in
      let st := write None st in
      let st := emit (if escape then esc line startOfLine else line) st in
      match rest with
      | [] => st
      | _ :: _ => textLines rest escape (emit nl st)
      end
  end.

(** [text(text, escape)] *)
Definition text (txt : string) (escape : bool)
           (st : MarkdownSerializer) : MarkdownSerializer :=
  textLines (splitLines txt) escape st.

(* ================================================================= *)
(** ** Array helpers of the inline renderer *)

(** [a.slice(from, to)] for [0 <= from] and [0 <= to]; both ends are
    clipped to the array, and the result is empty when [to <= from]. *)
Definition slice {A : Type} (from to : nat) (a : list A) : list A :=
  firstn (to - from) (skipn from a).

(** [a.pop()]: the last element and the array without it. *)
Definition pop {A : Type} (a : list A) : option (A * list A) :=
  match rev a with
  | [] => None
  | x :: r => Some (x, rev r)
  end.

(** The last mark of [marks] when it is a code mark:
    [marks.length && marks[marks.length - 1].type.isCode &&
     marks[marks.length - 1]]. *)
Definition codeMark (marks : list Mark) : option Mark :=
  match pop marks with
  | Some (m, _) => if isCode (markType m) then Some m else None
  | None => None
  end.

(** The inner loop of the reordering pass: the index, counted from [j],
    of the first mark of [active] equal to [mark]; the scan stops at the
    first mark that is not mixable. *)
Fixpoint findActive (mark : Mark) (active : list Mark) (j : nat) : option nat :=
  match active with
  | [] => None
  | other :: rest =>
      if negb (markdownMixable (markType other)) then None
      else if markEq mark other then Some j
      else findActive mark rest (S j)
  end.

(** The two reassignments of [marks] in the reordering pass. *)
Definition moveMark (marks : list Mark) (mark : Mark) (i j len : nat) : list Mark :=
  if (j <? i)%nat then
    slice 0 j marks ++ [mark] ++ slice j i marks ++ slice (i + 1) len marks
  else if (i <? j)%nat then
    slice 0 i marks ++ slice (i + 1) j marks ++ [mark] ++ slice j len marks
  else marks.

(** The loop [outer: for (let i = 0; i < len; i++)], by the number [k] of
    iterations left ([i + k = len]). Reading [marks[i]] never leaves the
    array (lemma [reorderLoop_length] below); the branch for a missing
    element stops the loop. *)
Fixpoint reorderLoop (k i len : nat) (active marks : list Mark) : list Mark :=
  match k with
  | O => marks
  | S k' =>
      match nth_error marks i with
      | None => marks
      | Some mark =>
          if negb (markdownMixable (markType mark)) then marks
          else
            let marks :=
              match findActive mark active 0 with
              | Some j => moveMark marks mark i j len
              | None => marks
              end in
            reorderLoop k' (S i) len active marks
      end
  end.

(** [while (keep < Math.min(active.length, len) &&
           marks[keep].eq(active[keep])) ++keep], by the number [k] of
    iterations the bound allows. *)
Fixpoint keepLoop (k keep : nat) (marks active : list Mark) : nat :=
  match k with
  | O => keep
  | S k' =>
      match nth_error marks keep, nth_error active keep with
      | Some m, Some a =>
          if markEq m a then keepLoop k' (S keep) marks active else keep
      | _, _ => keep
      end
  end.

(** [while (keep < active.length)
       this.text(this.markString(active.pop(), false), false)],
    by the number [k] of marks to close. *)
Fixpoint closeLoop (k : nat) (st : MarkdownSerializer) (active : list Mark)
  : MarkdownSerializer * list Mark :=
  match k with
  | O => (st, active)
  | S k' =>
      match pop active with
      | Some (m, active') =>
          closeLoop k' (text (markString m false) false st) active'
      | None => (st, active)
      end
  end.

(** [while (active.length < len) { let add = marks[active.length];
       active.push(add); this.text(this.markString(add, true), false) }],
    by the number [k] of marks to open. *)
Fixpoint openLoop (k : nat) (marks : list Mark)
         (st : MarkdownSerializer) (active : list Mark)
  : MarkdownSerializer * list Mark :=
  match k with
  | O => (st, active)
  | S k' =>
      match nth_error marks (List.length active) with
      | Some add =>
          openLoop k' marks (text (markString add true) false st) (active ++ [add])
      | None => (st, active)
      end
  end.

(* ================================================================= *)
(** ** Rendering, parameterised by the dispatch [render] *)

Section Renderers.

Variable render : Node -> MarkdownSerializer -> MarkdownSerializer.

(** [renderContent(parent)], on the children of [parent]. *)
Fixpoint renderContentWith (children : list Node)
         (st : MarkdownSerializer) : MarkdownSerializer :=
  match children with
  | [] => st
  | child :: rest => renderContentWith rest (render child st)
  end.

(** The closure [progress] of [renderInline]; [active] is the array it
    captures, threaded through. [None] is the call [progress(null)]. *)
Definition progressWith (node : option Node)
           (st : MarkdownSerializer) (active : list Mark)
  : MarkdownSerializer * list Mark :=
  let marks := match node with Some n => nodeMarks n | None => [] end in
  let code := codeMark marks in
  let len := List.length marks - (match code with Some _ => 1 | None => 0 end) in
  let marks := reorderLoop len 0 len active marks in
  let keep := keepLoop (Nat.min (List.length active) len) 0 marks active in
  let '(st, active) := closeLoop (List.length active - keep) st active in
  let '(st, active) := openLoop (len - List.length active) marks st active in
  match node with
  | Some n =>
      match code with
      | Some c =>
          if isText n then
            (text (markString c false ++ nodeText n ++ markString c true)
                  false st, active)
          else (render n st, active)
      | None => (render n st, active)
      end
  | None => (st, active)
  end.

(** [parent.forEach(progress)] *)
Fixpoint inlineLoopWith (children : list Node)
         (st : MarkdownSerializer) (active : list Mark)
  : MarkdownSerializer * list Mark :=
  match children with
  | [] => (st, active)
  | child :: rest =>
      let '(st, active) := progressWith (Some child) st active in
      inlineLoopWith rest st active
  end.

(** [renderInline(parent)], on the children of [parent]. *)
Definition renderInlineWith (children : list Node)
           (st : MarkdownSerializer) : MarkdownSerializer :=
  let '(st, active) := inlineLoopWith children st [] in
  fst (progressWith None st active).

(** The loop of [renderList] over the items, from item number [i]. *)
Fixpoint listItemsWith (node : Node) (d : string) (firstDelim : nat -> string)
         (items : list Node) (i : nat)
         (st : MarkdownSerializer) : MarkdownSerializer :=
  match items with
  | [] => st
  | item :: rest =>
      let st := if negb (i =? 0)%nat && tight (nodeAttrs node)
                then flushClose (Some 1) st else st in
      let st := wrapBlock d (Some (firstDelim i)) node (render item) st in
      listItemsWith node d firstDelim rest (S i) st
  end.

(** The spacing decision at the head of [renderList]. *)
Definition listSeparation (node : Node)
           (st : MarkdownSerializer) : MarkdownSerializer :=
  match closed st with
  | Some c =>
      if nodeTypeEqb (nodeType c) (nodeType node) then flushClose (Some 3) st
      else if inTightList st then flushClose (Some 1) st
      else st
  | None =>
      if inTightList st then flushClose (Some 1) st else st
  end.

(** [renderList(node, delim, firstDelim)], on the items of [node]. *)
Definition renderListWith (node : Node) (items : list Node) (d : string)
           (firstDelim : nat -> string)
           (st : MarkdownSerializer) : MarkdownSerializer :=
  let st := listSeparation node st in
  let prevTight := inTightList st in
  let st := setInTightList (tight (nodeAttrs node)) st in
  let st := listItemsWith node d firstDelim items 0 st in
  setInTightList prevTight st.

End Renderers.

(* ================================================================= *)
(** ** The [serializeMarkdown] methods and the dispatch *)

Definition defaultHardBreak : string := "\" ++ nl.

(** [node.attrs.order || 1] *)
Definition listStart (a : NodeAttrs) : Z :=
  match order a with
  | Some n => if (safeValue n =? 0)%Z then 1%Z else safeValue n
  | None => 1%Z
  end.

(** [String(start + node.childCount - 1).length] *)
Definition orderedMaxW (start : Z) (childCount : nat) : nat :=
  String.length
    (numberToString (jsAdd (jsAdd start (Z.of_nat childCount)) (-1))).

(** The first-line prefix of item [i] of an ordered list. *)
Definition orderedFirstDelim (start : Z) (maxW : nat) (i : nat) : string :=
  let nStr := numberToString (jsAdd start (Z.of_nat i)) in
  repeat " " (maxW - String.length nStr) ++ nStr ++ ". ".

(** The first-line prefix of every item of a bullet list. *)
Definition bulletFirstDelim (a : NodeAttrs) (i : nat) : string :=
  orElse (bullet a) "*" ++ " ".

(** The markup written for an image. *)
Definition imageMarkdown (a : NodeAttrs) : string :=
  "![" ++ esc (orElse (alt a) "") false ++ "](" ++ esc (src a) false
  ++ (if truthy (title a) then " " ++ quote (orElse (title a) "") else "")
  ++ ")".

(** [render(node)]: [node.type.serializeMarkdown(this, node)]. *)
Fixpoint render (node : Node) (st : MarkdownSerializer) {struct node}
  : MarkdownSerializer :=
  match node with
  | mkNode ty a children _ txt =>
      match ty with
      | BlockQuote =>
          wrapBlock "> " None node (renderContentWith render children) st
      | CodeBlock =>
          match params a with
          | None =>
              wrapBlock "    " None node (text (textContent node) false) st
          | Some p =>
              let st := write (Some ("```" ++ p ++ nl)) st in
              let st := text (textContent node) false st in
              let st := ensureNewLine st in
              let st := write (Some "```") st in
              closeBlock node st
          end
      | Heading =>
          let st := write (Some (repeat "#" (level a) ++ " ")) st in
          let st := renderInlineWith render children st in
          closeBlock node st
      | HorizontalRule =>
          let st := write (Some (orElse (markup a) "---")) st in
          closeBlock node st
      | BulletList =>
          renderListWith render node children "  " (bulletFirstDelim a) st
      | OrderedList =>
          let start := listStart a in
          let maxW := orderedMaxW start (List.length children) in
          let space := repeat " " (maxW + 2) in
          renderListWith render node children space
                         (orderedFirstDelim start maxW) st
      | ListItem => renderContentWith render children st
      | Paragraph =>
          let st := renderInlineWith render children st in
          closeBlock node st
      | Image => write (Some (imageMarkdown a)) st
      | HardBreak =>
          write (Some (orElse (hardBreak (options st)) defaultHardBreak)) st
      | Text => text txt true st
      end
  end.

Definition renderContent := renderContentWith render.
Definition progress := progressWith render.
Definition inlineLoop := inlineLoopWith render.
Definition renderInline := renderInlineWith render.
Definition listItems := listItemsWith render.
Definition renderList := renderListWith render.

(** [toMarkdown(doc, options)] *)
Definition toMarkdown (doc : Node) (opts : option Options) : string :=
  out (renderContent (nodeContent doc) (newSerializer opts)).

(* ================================================================= *)
(** ** The built-in mark types *)

Definition noMarkAttrs : MarkAttrs := mkMarkAttrs "" None.

Definition EmMark : MarkType :=
  mkMarkType "em" (MStr "*") (MStr "*") true false.

Definition StrongMark : MarkType :=
  mkMarkType "strong" (MStr "**") (MStr "**") true false.

Definition linkClose (a : MarkAttrs) : string :=
  "](" ++ esc (href a) false
  ++ (if truthy (linkTitle a) then " " ++ quote (orElse (linkTitle a) "") else "")
  ++ ")".

Definition LinkMark : MarkType :=
  mkMarkType "link" (MStr "[") (MFun linkClose) false false.

(** Modelled from the spec: among the built-in mark types only the code
    mark is literal ([isCode]); the flag itself is declared in the
    document model, outside the serializer's file. *)
Definition CodeMark : MarkType :=
  mkMarkType "code" (MStr "`") (MStr "`") false true.

Definition em : Mark := mkMark EmMark noMarkAttrs.
Definition strong : Mark := mkMark StrongMark noMarkAttrs.
Definition code : Mark := mkMark CodeMark noMarkAttrs.
Definition link (url : string) (t : option string) : Mark :=
  mkMark LinkMark (mkMarkAttrs url t).

(** A mark type registered from outside the file: a code mark written
    with distinct opening and closing tags. *)
Definition TagCodeMark : MarkType :=
  mkMarkType "code" (MStr "<code>") (MStr "</code>") false true.

Definition tagCode : Mark := mkMark TagCodeMark noMarkAttrs.

(** A mixable mark type registered from outside the file. *)
Definition UnderlineMark : MarkType :=
  mkMarkType "underline" (MStr "_") (MStr "_") true false.

Definition underline : Mark := mkMark UnderlineMark noMarkAttrs.

(** Constructors of nodes, for examples. *)
Definition txt (s : string) (ms : list Mark) : Node := mkNode Text noAttrs [] ms s.
Definition para (c : list Node) : Node := mkNode Paragraph noAttrs c [] "".
(** A top node: [toMarkdown] reads only its children. *)
Definition docOf (c : list Node) : Node := mkNode BlockQuote noAttrs c [] "".
Definition item (c : list Node) : Node := mkNode ListItem noAttrs c [] "".
Definition listAttrs (t : bool) (o : option SafeInteger) : NodeAttrs :=
  mkNodeAttrs 0 t None None None o "" None None.
Definition olist (t : bool) (o : option SafeInteger) (c : list Node) : Node :=
  mkNode OrderedList (listAttrs t o) c [] "".
Definition ulist (t : bool) (c : list Node) : Node :=
  mkNode BulletList (listAttrs t None) c [] "".
Definition quoteOf (c : list Node) : Node := mkNode BlockQuote noAttrs c [] "".

Definition twoTo53 : SafeInteger := mkSafe (2 ^ 53) eq_refl.

Definition itemA : Node := item [para [txt "a" []]].
Definition itemB : Node := item [para [txt "b" []]].
Definition listA : Node := ulist true [itemA].
Definition listAB : Node := ulist true [itemA; itemB].
Definition paraX : Node := para [txt "x" []].

(* ================================================================= *)
(** ** Vocabulary of the specification *)

(** The buffer ends with a line break. *)
Fixpoint endsWithLF (s : string) : bool :=
  match s with
  | "" => false
  | String c "" => Ascii.eqb c LF
  | String _ rest => endsWithLF rest
  end.

(** The last character of the string is whitespace. *)
Fixpoint endsWithSpace (s : string) : bool :=
  match s with
  | "" => false
  | String c "" => isSpace c
  | String _ rest => endsWithSpace rest
  end.

(** A string with its trailing whitespace removed. *)
Fixpoint stripTrailingSpace (s : string) : string :=
  match s with
  | "" => ""
  | String c rest => if allSpace s then "" else String c (stripTrailingSpace rest)
  end.

(** The buffer after a line break has been added unless the buffer is
    empty or already ends with one. *)
Definition lineBreakEnsured (s : string) : string :=
  if endsBlank s then s else s ++ nl.

(** The value of the [size] argument of [flushClose]. *)
Definition sizeOrDefault (size : option nat) : nat :=
  match size with Some n => n | None => 2 end.

(** The characters that [esc] escapes anywhere: backquote, asterisk,
    backslash, tilde, plus and the two square brackets. *)
Definition isMarkdownSpecial (c : ascii) : bool :=
  match nat_of_ascii c with
  | 96 | 42 | 92 | 126 | 43 | 91 | 93 => true
  | _ => false
  end.

(** The characters that [esc] escapes at the start of a line: colon,
    hash and hyphen. *)
Definition isLineStartSpecial (c : ascii) : bool :=
  match nat_of_ascii c with
  | 58 | 35 | 45 => true
  | _ => false
  end.

Definition startsLineSpecial (s : string) : bool :=
  match s with
  | "" => false
  | String c _ => isLineStartSpecial c
  end.

(** Every special character preceded by a backslash, the others kept. *)
Fixpoint escapeEach (s : string) : string :=
  match s with
  | "" => ""
  | String c rest =>
      (if isMarkdownSpecial c then "\" else "") ++ String c (escapeEach rest)
  end.

(** The markup of a hard break under the given options. *)
Definition hardBreakMarkup (o : Options) : string :=
  match hardBreak o with
  | Some s => if s =? "" then "\" ++ nl else s
  | None => "\" ++ nl
  end.

(** The number that a decimal numeral denotes, digits read from the left
    onto [acc]. *)
Fixpoint digitsValue (acc : N) (s : string) : N :=
  match s with
  | "" => acc
  | String c rest => digitsValue (10 * acc + (N_of_ascii c - 48))%N rest
  end.

Definition isListType (t : NodeType) : bool :=
  match t with
  | BulletList | OrderedList => true
  | _ => false
  end.

(** The continuation-line indent that a list node passes to
    [renderList]. *)
Definition listIndent (L : Node) : string :=
  match nodeType L with
  | OrderedList =>
      repeat " " (orderedMaxW (listStart (nodeAttrs L))
                              (List.length (nodeContent L)) + 2)
  | _ => "  "
  end.

(** The first-line prefix function that a list node passes to
    [renderList]. *)
Definition listFirstDelim (L : Node) : nat -> string :=
  match nodeType L with
  | OrderedList =>
      orderedFirstDelim (listStart (nodeAttrs L))
                        (orderedMaxW (listStart (nodeAttrs L))
                                     (List.length (nodeContent L)))
  | _ => bulletFirstDelim (nodeAttrs L)
  end.

(** *** The transitions of the inline renderer, as a trace

    What one call of [progress] emits, read off the values that its
    loops compute: the marks it closes, the marks it opens, and the
    rendering of the child. *)

Inductive InlineEvent : Type :=
| EvOpen (m : Mark)                 (* [text(markString(m, true), false)] *)
| EvClose (m : Mark)                (* [text(markString(m, false), false)] *)
| EvLiteral (c : Mark) (n : Node)   (* the code-mark case of [progress] *)
| EvRender (n : Node).              (* [render(n)] *)

Definition runEvent (e : InlineEvent)
           (st : MarkdownSerializer) : MarkdownSerializer :=
  match e with
  | EvOpen m => text (markString m true) false st
  | EvClose m => text (markString m false) false st
  | EvLiteral c n =>
      text (markString c false ++ nodeText n ++ markString c true) false st
  | EvRender n => render n st
  end.

Fixpoint runEvents (es : list InlineEvent)
         (st : MarkdownSerializer) : MarkdownSerializer :=
  match es with
  | [] => st
  | e :: rest => runEvents rest (runEvent e st)
  end.

(** The marks of the node that [progress] looks at. *)
Definition marksOf (node : option Node) : list Mark :=
  match node with Some n => nodeMarks n | None => [] end.

(** The value of [len] in [progress]. *)
Definition markLen (marks : list Mark) : nat :=
  List.length marks - (match codeMark marks with Some _ => 1 | None => 0 end).

(** The value of [marks] after the reordering pass. *)
Definition reordered (node : option Node) (active : list Mark) : list Mark :=
  reorderLoop (markLen (marksOf node)) 0 (markLen (marksOf node))
              active (marksOf node).

(** The value of [keep] in [progress]. *)
Definition keepOf (node : option Node) (active : list Mark) : nat :=
  keepLoop (Nat.min (List.length active) (markLen (marksOf node))) 0
           (reordered node active) active.

(** The marks that [progress] closes, in the order it closes them. *)
Definition closedMarks (node : option Node) (active : list Mark) : list Mark :=
  rev (skipn (keepOf node active) active).

(** The marks that [progress] opens, in the order it opens them. *)
Definition openedMarks (node : option Node) (active : list Mark) : list Mark :=
  slice (keepOf node active) (markLen (marksOf node)) (reordered node active).

(** The value of [active] when [progress] returns. *)
Definition nextActive (node : option Node) (active : list Mark) : list Mark :=
  firstn (keepOf node active) active ++ openedMarks node active.

Definition childEvent (node : option Node) : list InlineEvent :=
  match node with
  | Some n =>
      match codeMark (nodeMarks n) with
      | Some c => if isText n then [EvLiteral c n] else [EvRender n]
      | None => [EvRender n]
      end
  | None => []
  end.

Definition progressEvents (node : option Node) (active : list Mark)
  : list InlineEvent :=
  map EvClose (closedMarks node active)
  ++ map EvOpen (openedMarks node active)
  ++ childEvent node.

(** The trace of [renderInline]: one step per child, then the step
    without a child. *)
Fixpoint inlineEvents (children : list Node) (active : list Mark)
  : list InlineEvent :=
  match children with
  | [] => progressEvents None active
  | child :: rest =>
      progressEvents (Some child) active
      ++ inlineEvents rest (nextActive (Some child) active)
  end.

(** A trace is well nested from one stack of open marks to another when
    every closing event closes the mark opened last and not yet closed.
    The top of the stack is the end of the list, as in [active]. *)
Inductive WellNested : list Mark -> list InlineEvent -> list Mark -> Prop :=
| WN_done (s : list Mark) : WellNested s [] s
| WN_open (s : list Mark) (m : Mark) (es : list InlineEvent) (s' : list Mark) :
    WellNested (s ++ [m]) es s' -> WellNested s (EvOpen m :: es) s'
| WN_close (s : list Mark) (m : Mark) (es : list InlineEvent) (s' : list Mark) :
    WellNested s es s' -> WellNested (s ++ [m]) (EvClose m :: es) s'
| WN_literal (s : list Mark) (c : Mark) (n : Node) (es : list InlineEvent)
             (s' : list Mark) :
    WellNested s es s' -> WellNested s (EvLiteral c n :: es) s'
| WN_render (s : list Mark) (n : Node) (es : list InlineEvent) (s' : list Mark) :
    WellNested s es s' -> WellNested s (EvRender n :: es) s'.

(** The number of opening, and of closing, events for the marks that
    satisfy [p]. *)
Fixpoint countOpen (p : Mark -> bool) (es : list InlineEvent) : nat :=
  match es with
  | [] => 0
  | EvOpen m :: rest => (if p m then 1 else 0) + countOpen p rest
  | _ :: rest => countOpen p rest
  end.

Fixpoint countClose (p : Mark -> bool) (es : list InlineEvent) : nat :=
  match es with
  | [] => 0
  | EvClose m :: rest => (if p m then 1 else 0) + countClose p rest
  | _ :: rest => countClose p rest
  end.

(** *** Readers of the emitted markup

    How a Markdown reader takes back what [esc] and [quote] wrote. *)

(** Backslash escapes removed: a backslash stands for the character that
    follows it. *)
Fixpoint unescape (s : string) : string :=
  match s with
  | "" => ""
  | String c rest =>
      if Ascii.eqb c BACKSLASH then
        match rest with
        | "" => String c ""
        | String d rest' => String d (unescape rest')
        end
      else String c (unescape rest)
  end.

(** No character of the string is one that [esc] escapes anywhere. *)
Fixpoint noSpecial (s : string) : bool :=
  match s with
  | "" => true
  | String c rest => negb (isMarkdownSpecial c) && noSpecial rest
  end.

(** The text before the first occurrence of [c], and the text after it. *)
Fixpoint takeUntil (c : ascii) (s : string) : option (string * string) :=
  match s with
  | "" => None
  | String d rest =>
      if Ascii.eqb c d then Some ("", rest)
      else match takeUntil c rest with
           | Some (a, b) => Some (String d a, b)
           | None => None
           end
  end.

(** The closing delimiter of a link title that opens with [o]. *)
Definition closingDelimiter (o : ascii) : option ascii :=
  if Ascii.eqb o DQUOTE then Some DQUOTE
  else if Ascii.eqb o SQUOTE then Some SQUOTE
  else if Ascii.eqb o "("%char then Some ")"%char
  else None.

(** A delimited title read back: the text between the opening delimiter
    and the first closing delimiter, which must end the string. *)
Definition readQuoted (s : string) : option string :=
  match s with
  | "" => None
  | String o rest =>
      match closingDelimiter o with
      | Some c =>
          match takeUntil c rest with
          | Some (body, "") => Some body
          | _ => None
          end
      | None => None
      end
  end.

(** [st'] continues [st]: the same prefix, tight-list flag and options,
    and a buffer that starts with the buffer of [st]. *)
Definition Stable (st st' : MarkdownSerializer) : Prop :=
  delim st' = delim st
  /\ inTightList st' = inTightList st
  /\ options st' = options st
  /\ exists suffix, out st' = out st ++ suffix.

(** The line as [text] writes it: escaped with the given start-of-line
    flag, or raw. *)
Definition lineOut (escape startOfLine : bool) (line : string) : string :=
  if escape then esc line startOfLine else line.

(** What [text] writes for the lines after the first: each one after a
    line break and the prefix [d], escaped as the start of a line. *)
Fixpoint laterLines (escape : bool) (d : string) (lines : list string) : string :=
  match lines with
  | [] => ""
  | line :: rest => nl ++ d ++ lineOut escape true line ++ laterLines escape d rest
  end.

(** A block is, or is not, pending. *)
Definition pending (st : MarkdownSerializer) : bool :=
  match closed st with Some _ => true | None => false end.

(** The dispatch [r] continues every state on the node [n]. *)
Definition StableOn (r : Node -> MarkdownSerializer -> MarkdownSerializer)
           (n : Node) : Prop :=
  forall st, Stable st (r n st).

(** The mark [m] of a node equals the active mark [a]. *)
Definition sameMark (a m : Mark) : Prop := markEq m a = true.


(* ================================================================= *)
(** * Properties *)

(** ** Strings *)

#[local] Arguments Ascii.eqb : simpl never.

Lemma append_nil_r (s : string) : s ++ "" = s.
Proof. induction s as [|c s IH]; simpl; [reflexivity | now rewrite IH]. Qed.

Lemma append_assoc (a b c : string) : (a ++ b) ++ c = a ++ (b ++ c).
Proof. induction a as [|x a IH]; simpl; [reflexivity | now rewrite IH]. Qed.

Lemma length_append (a b : string) :
  String.length (a ++ b) = String.length a + String.length b.
Proof. induction a as [|x a IH]; simpl; [reflexivity | now rewrite IH]. Qed.

Lemma substring_prefix (a b : string) :
  substring 0 (String.length a) (a ++ b) = a.
Proof.
  induction a as [|x a IH]; simpl.
  - destruct b; reflexivity.
  - now rewrite IH.
Qed.

Lemma repeat_comm (x : string) (n : nat) : repeat x n ++ x = x ++ repeat x n.
Proof.
  induction n as [|n IH]; simpl.
  - now rewrite append_nil_r.
  - rewrite IH at 1. now rewrite append_assoc.
Qed.

Lemma length_repeat (x : string) (n : nat) :
  String.length (repeat x n) = n * String.length x.
Proof.
  induction n as [|n IH]; simpl; [reflexivity|].
  rewrite length_append, IH. lia.
Qed.

Lemma endsBlank_snoc (s : string) (c : ascii) :
  endsBlank (s ++ String c "") = Ascii.eqb c LF.
Proof.
  induction s as [|x s IH]; simpl; [reflexivity|].
  rewrite IH. destruct (s ++ String c "") eqn:E; [|reflexivity].
  destruct s; discriminate.
Qed.

Lemma endsBlank_nl (s : string) : endsBlank (s ++ nl) = true.
Proof. unfold nl. now rewrite endsBlank_snoc. Qed.

Lemma endsBlank_append_nl (s t : string) : endsBlank (s ++ t ++ nl) = true.
Proof. rewrite <- append_assoc. apply endsBlank_nl. Qed.

Lemma endsBlank_cases (s : string) :
  endsBlank s = true <-> s = "" \/ endsWithLF s = true.
Proof.
  induction s as [|c s IH]; simpl.
  - split; auto.
  - destruct s as [|d s'].
    + split; [auto | intros [H|H]; [discriminate | exact H]].
    + rewrite IH. split; intros [H|H]; try discriminate; auto.
Qed.

Lemma lineBreakEnsured_blank (s : string) : endsBlank (lineBreakEnsured s) = true.
Proof.
  unfold lineBreakEnsured. destruct (endsBlank s) eqn:E; [exact E | apply endsBlank_nl].
Qed.

(** ** Trailing whitespace of the prefix *)

Lemma execTrailingSpace_strip (s : string) :
  match execTrailingSpace s with
  | Some t => s = stripTrailingSpace s ++ t /\ t <> ""
  | None => stripTrailingSpace s = s
  end.
Proof.
  induction s as [|c s IH].
  - reflexivity.
  - change (execTrailingSpace (String c s))
      with (if allSpace (String c s) then Some (String c s) else execTrailingSpace s).
    change (stripTrailingSpace (String c s))
      with (if allSpace (String c s) then "" else String c (stripTrailingSpace s)).
    destruct (allSpace (String c s)).
    + split; [reflexivity | discriminate].
    + destruct (execTrailingSpace s) as [t|].
      * destruct IH as [IH1 IH2]. split; [|exact IH2].
        simpl. now rewrite <- IH1.
      * now rewrite IH.
Qed.

Lemma trimmedDelim_strip (d : string) : trimmedDelim d = stripTrailingSpace d.
Proof.
  unfold trimmedDelim, sliceTo.
  pose proof (execTrailingSpace_strip d) as H.
  destruct (execTrailingSpace d) as [t|].
  - destruct H as [H _].
    remember (stripTrailingSpace d) as p eqn:Ep. clear Ep. subst d.
    rewrite length_append.
    replace (String.length p + String.length t - String.length t)
      with (String.length p) by lia.
    apply substring_prefix.
  - now rewrite H.
Qed.

Lemma allSpace_endsWithSpace (s : string) :
  s <> "" -> allSpace s = true -> endsWithSpace s = true.
Proof.
  induction s as [|c s IH]; intros Hne Hall; [congruence|].
  simpl in Hall. apply andb_true_iff in Hall as [Hc Hs].
  destruct s as [|d s']; simpl; [exact Hc|].
  apply IH; [discriminate | exact Hs].
Qed.

Lemma endsWithSpace_allSpace_false (s : string) :
  endsWithSpace s = false -> s <> "" -> allSpace s = false.
Proof.
  intros H Hne. destruct (allSpace s) eqn:E; [|reflexivity].
  rewrite (allSpace_endsWithSpace s Hne E) in H. discriminate.
Qed.

Lemma stripTrailingSpace_spec (s : string) :
  exists ws, s = stripTrailingSpace s ++ ws
             /\ allSpace ws = true
             /\ endsWithSpace (stripTrailingSpace s) = false.
Proof.
  induction s as [|c s IH].
  - exists "". repeat split.
  - change (stripTrailingSpace (String c s))
      with (if allSpace (String c s) then "" else String c (stripTrailingSpace s)).
    destruct (allSpace (String c s)) eqn:E.
    + exists (String c s). repeat split. exact E.
    + destruct IH as (ws & H1 & H2 & H3). exists ws. repeat split.
      * simpl. now rewrite <- H1.
      * exact H2.
      * simpl. destruct (stripTrailingSpace s) eqn:Es; [|exact H3].
        simpl in H1. subst ws. simpl in E. rewrite H2 in E.
        now rewrite andb_true_r in E.
Qed.

(** ** [flushClose] *)

Lemma emitBlankLines_out (n : nat) (dm : string) (st : MarkdownSerializer) :
  emitBlankLines n dm st = emit (repeat (dm ++ nl) n) st.
Proof.
  revert st. induction n as [|n IH]; intros st; simpl.
  - unfold emit, setOut. rewrite append_nil_r. now destruct st.
  - rewrite IH. unfold emit, setOut. simpl.
    rewrite repeat_comm. now rewrite !append_assoc.
Qed.

Lemma flushClose_none (size : option nat) (st : MarkdownSerializer) :
  closed st = None -> flushClose size st = st.
Proof. intros H. unfold flushClose. now rewrite H. Qed.

Lemma flushClose_some (size : option nat) (o d : string) (c : Node)
      (tl : bool) (opts : Options) :
  flushClose size (mkState o d (Some c) tl opts)
  = mkState (lineBreakEnsured o
             ++ repeat (trimmedDelim d ++ nl) (sizeOrDefault size - 1))
            d None tl opts.
Proof.
  unfold flushClose, lineBreakEnsured, atBlank, sizeOrDefault. simpl.
  set (n := match size with Some n => n | None => 2 end).
  destruct (endsBlank o); simpl.
  - destruct (Nat.ltb_spec 1 n) as [H|H].
    + rewrite emitBlankLines_out. reflexivity.
    + replace (n - 1) with 0 by lia. simpl. now rewrite append_nil_r.
  - destruct (Nat.ltb_spec 1 n) as [H|H].
    + rewrite emitBlankLines_out. reflexivity.
    + replace (n - 1) with 0 by lia. simpl. now rewrite append_nil_r.
Qed.

(** C4 (as amended). With a block closure pending, [flushClose(size)]
    appends a line break unless the buffer is empty or already ends with
    one, then appends [size - 1] lines (one when [size] is omitted), each
    the current prefix without its trailing whitespace followed by a line
    break, and clears the pending closure; the prefix and the other
    fields are unchanged. With no closure pending it changes nothing. *)
Theorem flushClose_effect :
  forall (size : option nat) (o d : string) (c : Node) (tl : bool) (opts : Options),
    flushClose size (mkState o d (Some c) tl opts)
    = mkState (lineBreakEnsured o
               ++ repeat (trimmedDelim d ++ nl) (sizeOrDefault size - 1))
              d None tl opts
    /\ flushClose size (mkState o d None tl opts) = mkState o d None tl opts
    /\ lineBreakEnsured o
       = (if (o =? "") || endsWithLF o then o else o ++ nl)
    /\ (exists ws, d = trimmedDelim d ++ ws
                   /\ allSpace ws = true
                   /\ endsWithSpace (trimmedDelim d) = false)
    /\ repeat (trimmedDelim "> " ++ nl) (sizeOrDefault (Some 1) - 1) = ""
    /\ repeat (trimmedDelim "> " ++ nl) (sizeOrDefault None - 1) = ">" ++ nl
    /\ repeat (trimmedDelim "> " ++ nl) (sizeOrDefault (Some 3) - 1)
       = ">" ++ nl ++ ">" ++ nl.
Proof.
  intros size o d c tl opts.
  split; [apply flushClose_some|].
  split; [reflexivity|].
  split.
  - unfold lineBreakEnsured.
    destruct (endsBlank o) eqn:E.
    + apply endsBlank_cases in E as [E|E].
      * subst o. reflexivity.
      * rewrite E, orb_true_r. reflexivity.
    + destruct ((o =? "") || endsWithLF o) eqn:F; [|reflexivity].
      assert (B : endsBlank o = true).
      { apply endsBlank_cases. apply orb_true_iff in F as [F|F].
        - left. now apply String.eqb_eq.
        - now right. }
      congruence.
  - split; [|repeat split].
    rewrite trimmedDelim_strip. apply stripTrailingSpace_spec.
Qed.

(** C4, the claim as stated fails on an empty buffer: the regular
    expression of [atBlank] accepts the empty buffer, so no line break is
    added and, for [size = 1], the buffer is still empty afterwards. *)
Lemma flushClose_empty_buffer_gets_no_line_break :
  ~ (forall (st : MarkdownSerializer) (size : nat),
        closed st <> None ->
        endsWithLF (out (flushClose (Some size) st)) = true).
Proof.
  intros H.
  specialize (H (mkState "" "" (Some (para [])) false (mkOptions None)) 1).
  assert (E : endsWithLF
                (out (flushClose (Some 1)
                        (mkState "" "" (Some (para [])) false (mkOptions None))))
              = false) by reflexivity.
  rewrite H in E; [discriminate|]. simpl. discriminate.
Qed.

(** A pending closure on an empty buffer arises from an empty first
    paragraph; the next block then starts after a single line break. *)
Lemma empty_paragraph_pending_on_empty_buffer :
  render (para []) (newSerializer None)
  = mkState "" "" (Some (para [])) false (mkOptions None)
  /\ toMarkdown (docOf [para []; para [txt "a" []]]) None = nl ++ "a".
Proof. split; reflexivity. Qed.

(** ** [esc] *)

Lemma inClass_special (c : ascii) : inClass "`*\~+[]" c = isMarkdownSpecial c.
Proof. destruct c as [[] [] [] [] [] [] [] []]; reflexivity. Qed.

Lemma inClass_lineStart (c : ascii) : inClass ":#-" c = isLineStartSpecial c.
Proof. destruct c as [[] [] [] [] [] [] [] []]; reflexivity. Qed.

Lemma special_not_lineStart (c : ascii) :
  isMarkdownSpecial c = true -> isLineStartSpecial c = false.
Proof.
  destruct c as [[] [] [] [] [] [] [] []]; vm_compute; intro H;
    (reflexivity || discriminate H).
Qed.

Lemma replaceAllClass_escapeEach (s : string) :
  replaceAllClass "`*\~+[]" s = escapeEach s.
Proof.
  induction s as [|c s IH]; [reflexivity|].
  change (replaceAllClass "`*\~+[]" (String c s))
    with (if inClass "`*\~+[]" c
          then String BACKSLASH (String c (replaceAllClass "`*\~+[]" s))
          else String c (replaceAllClass "`*\~+[]" s)).
  rewrite inClass_special, IH. simpl.
  destruct (isMarkdownSpecial c); reflexivity.
Qed.

Lemma esc_escapeEach (s : string) (b : bool) :
  esc s b = (if b && startsLineSpecial s then "\" else "") ++ escapeEach s.
Proof.
  unfold esc. rewrite replaceAllClass_escapeEach.
  destruct b; [|reflexivity]. simpl andb.
  destruct s as [|c s]; [reflexivity|].
  simpl escapeEach. simpl startsLineSpecial.
  destruct (isMarkdownSpecial c) eqn:E.
  - rewrite (special_not_lineStart _ E). reflexivity.
  - change (("" ++ String c (escapeEach s))) with (String c (escapeEach s)).
    unfold replaceLeadingClass. rewrite inClass_lineStart.
    destruct (isLineStartSpecial c); reflexivity.
Qed.

Lemma splitLines_single (s : string) : lacksChar LF s = true -> splitLines s = [s].
Proof.
  induction s as [|c s IH]; [reflexivity|].
  simpl. intros H. apply andb_true_iff in H as [H1 H2].
  rewrite Ascii.eqb_sym in H1. apply negb_true_iff in H1. rewrite H1.
  now rewrite (IH H2).
Qed.

Lemma write_none_midline (st : MarkdownSerializer) :
  atBlank st = false -> closed st = None -> write None st = st.
Proof.
  intros B C. unfold write. rewrite (flushClose_none _ _ C), B.
  now rewrite andb_false_r.
Qed.

Lemma text_single (s : string) (escape : bool) (st : MarkdownSerializer) :
  lacksChar LF s = true ->
  text s escape st
  = emit (if escape
          then esc s (atBlank st
                      || match closed st with Some _ => true | None => false end)
          else s)
         (write None st).
Proof.
  intros L. unfold text. rewrite (splitLines_single _ L). reflexivity.
Qed.

(** C3. [esc] puts a backslash before every backquote, asterisk,
    backslash, tilde, plus and square bracket of the string, wherever it
    stands, and before a leading colon, hash or hyphen exactly when the
    start-of-line flag is set. A one-line text written in the middle of
    an output line is escaped with the flag unset, so such a leading
    character stays as it is; written on a fresh line it is escaped with
    the flag set. *)
Theorem esc_specials_and_line_start :
  forall (s : string) (flag : bool) (st : MarkdownSerializer),
    esc s flag
    = (if flag && startsLineSpecial s then "\" else "") ++ escapeEach s
    /\ (lacksChar LF s = true -> atBlank st = false -> closed st = None ->
        text s true st = emit (escapeEach s) st)
    /\ (lacksChar LF s = true -> atBlank st = true ->
        text s true st = emit (esc s true) (write None st)).
Proof.
  intros s flag st. split; [apply esc_escapeEach|]. split.
  - intros L B C. rewrite (text_single _ true st L).
    rewrite B, C, (write_none_midline st B C). simpl orb. cbv iota.
    now rewrite esc_escapeEach.
  - intros L B. rewrite (text_single _ true st L). now rewrite B.
Qed.

Lemma esc_specials_and_line_start_witness :
  esc "-a*b" true = "\-a\*b"
  /\ text "# x" true (mkState "> " "> " None false (mkOptions None))
     = emit "# x" (mkState "> " "> " None false (mkOptions None))
  /\ text "# x" true (mkState "" "" None false (mkOptions None))
     = emit "\# x" (mkState "" "" None false (mkOptions None)).
Proof.
  pose proof (esc_specials_and_line_start "-a*b" true
                (mkState "" "" None false (mkOptions None))) as [H1 _].
  pose proof (esc_specials_and_line_start "# x" false
                (mkState "> " "> " None false (mkOptions None))) as [_ [H2 _]].
  pose proof (esc_specials_and_line_start "# x" false
                (mkState "" "" None false (mkOptions None))) as [_ [_ H3]].
  split; [exact H1|]. split.
  - apply H2; reflexivity.
  - apply H3; reflexivity.
Defined.

(** ** Inline nodes *)

Lemma write_some (s : string) (st : MarkdownSerializer) :
  s <> "" -> write (Some s) st = emit s (write None st).
Proof.
  intros H. unfold write. simpl.
  destruct (String.eqb_spec s ""); [contradiction|]. reflexivity.
Qed.

Lemma imageMarkdown_nonempty (a : NodeAttrs) : imageMarkdown a <> "".
Proof. unfold imageMarkdown. simpl. discriminate. Qed.

(** C9. An image is written as [![], the escaped alternative text, [](],
    the escaped source, an optional quoted title, and [)]. When [alt] is
    absent the alternative text is empty; when [title] is absent there is
    no title segment; rendering is defined in both cases. An image with
    source [a.png] and neither attribute serializes to [![](a.png)]. *)
Theorem image_absent_alt_title :
  forall (a : NodeAttrs) (c : list Node) (ms : list Mark) (t : string)
         (st : MarkdownSerializer),
    render (mkNode Image a c ms t) st = emit (imageMarkdown a) (write None st)
    /\ (alt a = None ->
        imageMarkdown a
        = "![](" ++ esc (src a) false
          ++ (if truthy (title a) then " " ++ quote (orElse (title a) "") else "")
          ++ ")")
    /\ (title a = None ->
        imageMarkdown a
        = "![" ++ esc (orElse (alt a) "") false ++ "](" ++ esc (src a) false ++ ")")
    /\ (alt a = None -> title a = None ->
        render (mkNode Image a c ms t) st
        = emit ("![](" ++ esc (src a) false ++ ")") (write None st))
    /\ toMarkdown
         (docOf [para [mkNode Image
                         (mkNodeAttrs 0 false None None None None "a.png" None None)
                         [] [] ""]]) None
       = "![](a.png)".
Proof.
  intros a c ms t st.
  assert (R : render (mkNode Image a c ms t) st
              = emit (imageMarkdown a) (write None st)).
  { simpl. apply write_some, imageMarkdown_nonempty. }
  split; [exact R|]. split; [|split; [|split; [|reflexivity]]].
  - intros Ha. unfold imageMarkdown. rewrite Ha. reflexivity.
  - intros Ht. unfold imageMarkdown. rewrite Ht. reflexivity.
  - intros Ha Ht. rewrite R. unfold imageMarkdown. rewrite Ha, Ht. reflexivity.
Qed.

Lemma image_absent_alt_title_witness :
  imageMarkdown (mkNodeAttrs 0 false None None None None "a.png" None None)
  = "![](a.png)"
  /\ render (mkNode Image (mkNodeAttrs 0 false None None None None "a.png" None None)
                    [] [] "")
            (newSerializer None)
     = emit "![](a.png)" (write None (newSerializer None)).
Proof.
  pose proof (image_absent_alt_title
                (mkNodeAttrs 0 false None None None None "a.png" None None)
                [] [] "" (newSerializer None)) as (_ & H2 & _ & H4 & _).
  split.
  - exact (eq_trans (H2 eq_refl) eq_refl).
  - exact (eq_trans (H4 eq_refl eq_refl) eq_refl).
Defined.

Lemma hardBreakMarkup_orElse (o : Options) :
  orElse (hardBreak o) defaultHardBreak = hardBreakMarkup o.
Proof. reflexivity. Qed.

Lemma hardBreakMarkup_nonempty (o : Options) : hardBreakMarkup o <> "".
Proof.
  unfold hardBreakMarkup. destruct (hardBreak o) as [s|]; [|discriminate].
  destruct (String.eqb_spec s ""); [discriminate | assumption].
Qed.

(** C10. A hard break writes the [hardBreak] option when that string is
    not empty, and a backslash followed by a line break when the option
    is absent or is the empty string. *)
Theorem hardBreak_option_or_default :
  forall (a : NodeAttrs) (c : list Node) (ms : list Mark) (t : string)
         (st : MarkdownSerializer),
    render (mkNode HardBreak a c ms t) st
    = emit (hardBreakMarkup (options st)) (write None st)
    /\ hardBreakMarkup (mkOptions None) = "\" ++ nl
    /\ hardBreakMarkup (mkOptions (Some "")) = "\" ++ nl
    /\ toMarkdown
         (docOf [para [txt "a" []; mkNode HardBreak noAttrs [] [] ""; txt "b" []]])
         (Some (mkOptions (Some "")))
       = "a\" ++ nl ++ "b"
    /\ toMarkdown
         (docOf [para [txt "a" []; mkNode HardBreak noAttrs [] [] ""; txt "b" []]])
         (Some (mkOptions (Some ("  " ++ nl))))
       = "a  " ++ nl ++ "b".
Proof.
  intros a c ms t st. split; [|repeat split].
  simpl. rewrite hardBreakMarkup_orElse.
  apply write_some, hardBreakMarkup_nonempty.
Qed.

(** ** Fields that the state operations preserve *)

Lemma flushClose_delim (size : option nat) (st : MarkdownSerializer) :
  delim (flushClose size st) = delim st.
Proof.
  destruct st as [o d [c|] tl opts]; [|reflexivity].
  now rewrite flushClose_some.
Qed.

Lemma flushClose_closed (size : option nat) (st : MarkdownSerializer) :
  closed (flushClose size st) = None.
Proof.
  destruct st as [o d [c|] tl opts]; [|reflexivity].
  now rewrite flushClose_some.
Qed.

Lemma write_delim (content : option string) (st : MarkdownSerializer) :
  delim (write content st) = delim st.
Proof.
  unfold write.
  destruct (truthy content);
    destruct (negb (delim (flushClose None st) =? "")
              && atBlank (flushClose None st));
    simpl; apply flushClose_delim.
Qed.

Lemma write_closed (content : option string) (st : MarkdownSerializer) :
  closed (write content st) = None.
Proof.
  unfold write.
  destruct (truthy content);
    destruct (negb (delim (flushClose None st) =? "")
              && atBlank (flushClose None st));
    simpl; apply flushClose_closed.
Qed.

Lemma wrapBlock_closed d fd node f st :
  closed (wrapBlock d fd node f st) = Some node.
Proof. reflexivity. Qed.

Lemma wrapBlock_delim d fd node f st :
  delim (wrapBlock d fd node f st) = delim st.
Proof. reflexivity. Qed.

Lemma flushClose_inTightList (size : option nat) (st : MarkdownSerializer) :
  inTightList (flushClose size st) = inTightList st.
Proof.
  destruct st as [o d [c|] tl opts]; [|reflexivity].
  now rewrite flushClose_some.
Qed.

Lemma listSeparation_inTightList (L : Node) (st : MarkdownSerializer) :
  inTightList (listSeparation L st) = inTightList st.
Proof.
  unfold listSeparation.
  destruct (closed st) as [c|];
    [destruct (nodeTypeEqb (nodeType c) (nodeType L))|];
    try destruct (inTightList st) eqn:E;
    rewrite ?flushClose_inTightList; auto.
Qed.

Lemma listSeparation_delim (L : Node) (st : MarkdownSerializer) :
  delim (listSeparation L st) = delim st.
Proof.
  unfold listSeparation.
  destruct (closed st) as [c|];
    [destruct (nodeTypeEqb (nodeType c) (nodeType L))|];
    try destruct (inTightList st);
    rewrite ?flushClose_delim; auto.
Qed.

(** [renderList] as the spacing decision, the item loop under the
    list's own tight flag, and the restored flag. *)
Lemma renderList_unfolded (L : Node) (items : list Node) (d : string)
      (fd : nat -> string) (st : MarkdownSerializer) :
  renderList L items d fd st
  = setInTightList (inTightList st)
      (listItems L d fd items 0
         (setInTightList (tight (nodeAttrs L)) (listSeparation L st))).
Proof.
  unfold renderList, renderListWith. now rewrite listSeparation_inTightList.
Qed.

(** ** The loop of [renderList] *)

Section ListLoop.

Variable r : Node -> MarkdownSerializer -> MarkdownSerializer.
Variables (node : Node) (d : string) (fd : nat -> string).

Lemma listItemsWith_app (pre post : list Node) (i : nat) (st : MarkdownSerializer) :
  listItemsWith r node d fd (pre ++ post) i st
  = listItemsWith r node d fd post (i + List.length pre)
                  (listItemsWith r node d fd pre i st).
Proof.
  revert i st. induction pre as [|x pre IH]; intros i st; simpl.
  - now rewrite Nat.add_0_r.
  - rewrite IH. now rewrite Nat.add_succ_r.
Qed.

Lemma listItemsWith_closed (items : list Node) (i : nat) (st : MarkdownSerializer) :
  items <> [] -> closed (listItemsWith r node d fd items i st) = Some node.
Proof.
  revert i st. induction items as [|x items IH]; intros i st H; [congruence|].
  simpl. destruct items as [|y items]; [reflexivity|].
  apply IH. discriminate.
Qed.

Lemma listItemsWith_delim (items : list Node) (i : nat) (st : MarkdownSerializer) :
  delim (listItemsWith r node d fd items i st) = delim st.
Proof.
  revert i st. induction items as [|x items IH]; intros i st; [reflexivity|].
  simpl. rewrite IH, wrapBlock_delim.
  destruct (negb (i =? 0)%nat && tight (nodeAttrs node)); [|reflexivity].
  apply flushClose_delim.
Qed.

End ListLoop.

Lemma render_list (L : Node) (st : MarkdownSerializer) :
  isListType (nodeType L) = true ->
  render L st = renderList L (nodeContent L) (listIndent L) (listFirstDelim L) st.
Proof.
  destruct L as [ty a ch ms t]. destruct ty; simpl; try discriminate; reflexivity.
Qed.

Lemma render_list_closed (L : Node) (st : MarkdownSerializer) :
  isListType (nodeType L) = true -> nodeContent L <> [] ->
  closed (render L st) = Some L.
Proof.
  intros HL Hne. rewrite (render_list L st HL).
  unfold renderList, renderListWith. simpl.
  now apply listItemsWith_closed.
Qed.

Lemma append_nonempty_r (a b : string) : b <> "" -> a ++ b <> "".
Proof. destruct a; simpl; [auto | discriminate]. Qed.

Lemma listFirstDelim_nonempty (L : Node) (i : nat) : listFirstDelim L i <> "".
Proof.
  unfold listFirstDelim, orderedFirstDelim, bulletFirstDelim.
  destruct (nodeType L); repeat apply append_nonempty_r; discriminate.
Qed.

(** The buffer once the first-line prefix [fd] of an item has been
    written over a pending closure: directly, and after [flushClose(1)]. *)
Lemma write_after_pending (fd : string) (st : MarkdownSerializer) (c : Node) :
  closed st = Some c -> fd <> "" ->
  out (write (Some fd) st)
  = lineBreakEnsured (out st) ++ (trimmedDelim (delim st) ++ nl) ++ delim st ++ fd.
Proof.
  intros C F. rewrite (write_some fd st F).
  destruct st as [o d cl tl opts]. simpl in C. subst cl.
  unfold write. rewrite flushClose_some. simpl delim. unfold atBlank. simpl out.
  rewrite <- append_assoc, endsBlank_nl, andb_true_r.
  destruct (String.eqb_spec d ""); simpl.
  - subst d. now rewrite !append_assoc.
  - now rewrite !append_assoc.
Qed.

Lemma write_after_flush1 (fd : string) (st : MarkdownSerializer) (c : Node) :
  closed st = Some c -> fd <> "" ->
  out (write (Some fd) (flushClose (Some 1) st))
  = lineBreakEnsured (out st) ++ delim st ++ fd.
Proof.
  intros C F. rewrite (write_some fd _ F).
  destruct st as [o d cl tl opts]. simpl in C. subst cl.
  rewrite flushClose_some. simpl repeat. rewrite append_nil_r.
  unfold write. rewrite flushClose_none by reflexivity.
  unfold atBlank. simpl. rewrite lineBreakEnsured_blank, andb_true_r.
  destruct (String.eqb_spec d ""); simpl.
  - now subst d.
  - now rewrite !append_assoc.
Qed.

(** C6. Rendering a list runs the spacing decision, then the items, one
    [wrapBlock] each. Every item after the first starts with the list's
    own closure pending. When the list is tight, [flushClose(1)] runs
    before the item, and between the end of the previous item and the
    item's first-line prefix only a line break is added unless the buffer
    already ends with one (no blank line). When the list is not tight,
    the default spacing of [write] applies: one line holding the trimmed
    prefix is added between the two items. *)
Theorem list_item_spacing :
  forall (L : Node) (pre : list Node) (it : Node) (rest : list Node)
         (st : MarkdownSerializer),
    isListType (nodeType L) = true ->
    nodeContent L = (pre ++ it :: rest)%list ->
    pre <> [] ->
    let d := listIndent L in
    let fd := listFirstDelim L in
    let i := List.length pre in
    let st0 := setInTightList (tight (nodeAttrs L)) (listSeparation L st) in
    let st_i := listItems L d fd pre 0 st0 in
    let head := write (Some (fd i))
                      (if tight (nodeAttrs L) then flushClose (Some 1) st_i
                       else st_i) in
    render L st
    = setInTightList (inTightList st)
        (listItems L d fd rest (S i)
           (closeBlock L (setDelim (delim st)
                            (render it (setDelim (delim st ++ d) head)))))
    /\ closed st_i = Some L
    /\ delim st_i = delim st
    /\ out head
       = lineBreakEnsured (out st_i)
         ++ (if tight (nodeAttrs L) then "" else trimmedDelim (delim st) ++ nl)
         ++ delim st ++ fd i
    /\ toMarkdown (docOf [ulist true [itemA; itemB]]) None
       = "* a" ++ nl ++ "* b"
    /\ toMarkdown (docOf [ulist false [itemA; itemB]]) None
       = "* a" ++ nl ++ nl ++ "* b"
    /\ toMarkdown (docOf [quoteOf [olist true None [itemA; itemB]]]) None
       = "> 1. a" ++ nl ++ "> 2. b"
    /\ toMarkdown (docOf [quoteOf [olist false None [itemA; itemB]]]) None
       = "> 1. a" ++ nl ++ ">" ++ nl ++ "> 2. b".
Proof.
  intros L pre it rest st HL HC Hpre d fd i st0 st_i head.
  assert (C : closed st_i = Some L) by (now apply listItemsWith_closed).
  assert (D : delim st_i = delim st).
  { unfold st_i, listItems. rewrite listItemsWith_delim. unfold st0.
    simpl. apply listSeparation_delim. }
  assert (DH : delim head = delim st).
  { unfold head. rewrite write_delim.
    destruct (tight (nodeAttrs L)); [rewrite flushClose_delim|]; exact D. }
  split; [|split; [exact C|split; [exact D|split; [|repeat split]]]].
  - rewrite (render_list L st HL), renderList_unfolded, HC.
    fold d fd st0. f_equal.
    unfold listItems. rewrite listItemsWith_app. simpl.
    fold i. fold (listItems L d fd pre 0 st0). fold st_i.
    assert (Hi : (i =? 0)%nat = false).
    { apply Nat.eqb_neq. unfold i. destruct pre; [congruence | discriminate]. }
    rewrite Hi. simpl negb. simpl andb.
    unfold wrapBlock.
    assert (O : orElse (Some (fd i)) d = fd i).
    { unfold orElse.
      destruct (String.eqb_spec (fd i) ""); [|reflexivity].
      now destruct (listFirstDelim_nonempty L i). }
    rewrite O. fold head.
    assert (D' : delim (if tight (nodeAttrs L) then flushClose (Some 1) st_i
                        else st_i) = delim st).
    { destruct (tight (nodeAttrs L)); [rewrite flushClose_delim|]; exact D. }
    rewrite D', DH. reflexivity.
  - unfold head, fd. rewrite <- D. destruct (tight (nodeAttrs L)).
    + rewrite (write_after_flush1 _ st_i L C (listFirstDelim_nonempty L i)).
      reflexivity.
    + rewrite (write_after_pending _ st_i L C (listFirstDelim_nonempty L i)).
      now rewrite !append_assoc.
Qed.

Lemma list_item_spacing_witness :
  render listAB (newSerializer None)
  = setInTightList false
      (closeBlock listAB
         (setDelim ""
            (render itemB
               (setDelim "  "
                  (write (Some "* ")
                     (flushClose (Some 1)
                        (listItems listAB "  " (listFirstDelim listAB) [itemA] 0
                           (setInTightList true (newSerializer None)))))))))
  /\ out (write (Some "* ")
            (flushClose (Some 1)
               (listItems listAB "  " (listFirstDelim listAB) [itemA] 0
                  (setInTightList true (newSerializer None)))))
     = "* a" ++ nl ++ "* ".
Proof.
  pose proof (list_item_spacing listAB [itemA] itemB [] (newSerializer None)
                eq_refl eq_refl ltac:(discriminate)) as H.
  cbv zeta in H. destruct H as (H1 & _ & _ & H4 & _).
  split; [exact H1 | exact (eq_trans H4 eq_refl)].
Defined.

(** ** Sibling lists *)







(** ** Decimal numerals *)

Lemma size_nat_bound (n : N) : (n < 2 ^ N.of_nat (N.size_nat n))%N.
Proof.
  destruct n as [|p]; [reflexivity|]. simpl N.size_nat.
  induction p as [p IH|p IH|]; simpl Pos.size_nat.
  - rewrite Nat2N.inj_succ, N.pow_succ_r'. lia.
  - rewrite Nat2N.inj_succ, N.pow_succ_r'. lia.
  - reflexivity.
Qed.

Lemma div10_lt (n k : N) : (n < 2 * k -> n / 10 < k)%N.
Proof. intros H. apply N.Div0.div_lt_upper_bound; lia. Qed.


Lemma digitsFuel_length_pos (f : nat) (n : N) :
  1 <= String.length (digitsFuel (S f) n).
Proof.
  simpl. destruct (n <? 10)%N; simpl; [lia|].
  rewrite length_append. simpl. lia.
Qed.


Lemma digitsValue_app (acc : N) (a b : string) :
  digitsValue acc (a ++ b) = digitsValue (digitsValue acc a) b.
Proof. revert acc. induction a as [|c a IH]; intros acc; simpl; auto. Qed.

Lemma digitChar_value (d : N) : (d < 10)%N -> (N_of_ascii (digitChar d) - 48 = d)%N.
Proof.
  intros H. unfold digitChar. rewrite N_ascii_embedding by lia. lia.
Qed.

Lemma digitsFuel_value (f : nat) (n : N) :
  (n < 2 ^ N.of_nat f)%N -> digitsValue 0 (digitsFuel (S f) n) = n.
Proof.
  revert n. induction f as [|f IH]; intros n B.
  - simpl in B. assert (n = 0%N) by lia. subst n. reflexivity.
  - change (digitsFuel (S (S f)) n)
      with (if (n <? 10)%N then String (digitChar n) ""
            else digitsFuel (S f) (n / 10)%N ++ String (digitChar (n mod 10)%N) "").
    destruct (N.ltb_spec n 10) as [L|L].
    + cbn [digitsValue]. rewrite digitChar_value by exact L. lia.
    + rewrite Nat2N.inj_succ, N.pow_succ_r' in B.
      rewrite digitsValue_app, IH by (now apply div10_lt).
      cbn [digitsValue].
      rewrite digitChar_value by (apply N.mod_lt; lia).
      pose proof (N.div_mod n 10). lia.
Qed.

(** [String_ n] is a numeral of [n]: the fuel never runs out. *)
Lemma String_value (n : N) : digitsValue 0 (String_ n) = n.
Proof. apply digitsFuel_value, size_nat_bound. Qed.









(** ** The loops of the inline renderer *)

Lemma slice_length {A : Type} (a b : nat) (l : list A) :
  List.length (slice a b l) = Nat.min (b - a) (List.length l - a).
Proof. unfold slice. now rewrite length_firstn, length_skipn. Qed.

Lemma moveMark_length (marks : list Mark) (mark : Mark) (i j len : nat) :
  i < len -> len <= List.length marks ->
  len <= List.length (moveMark marks mark i j len).
Proof.
  intros Hi Hlen. unfold moveMark.
  destruct (Nat.ltb_spec j i); [|destruct (Nat.ltb_spec i j)].
  - rewrite !length_app, !slice_length. simpl. lia.
  - rewrite !length_app, !slice_length. simpl. lia.
  - exact Hlen.
Qed.

(** Reading [marks[i]] in the reordering pass stays inside the array:
    the array never gets shorter than [len]. *)
Lemma reorderLoop_length (k i len : nat) (active marks : list Mark) :
  i + k = len -> len <= List.length marks ->
  len <= List.length (reorderLoop k i len active marks).
Proof.
  revert i marks. induction k as [|k IH]; intros i marks E Hlen; [exact Hlen|].
  simpl. destruct (nth_error marks i) as [mark|]; [|exact Hlen].
  destruct (negb (markdownMixable (markType mark))); [exact Hlen|].
  apply IH; [lia|].
  destruct (findActive mark active 0); [|exact Hlen].
  apply moveMark_length; lia.
Qed.

Lemma markLen_le (marks : list Mark) : markLen marks <= List.length marks.
Proof. unfold markLen. lia. Qed.

Lemma reordered_length (node : option Node) (active : list Mark) :
  markLen (marksOf node) <= List.length (reordered node active).
Proof.
  unfold reordered. apply reorderLoop_length; [lia | apply markLen_le].
Qed.

Lemma keepLoop_bound (k keep : nat) (marks active : list Mark) :
  keep <= keepLoop k keep marks active <= keep + k.
Proof.
  revert keep. induction k as [|k IH]; intros keep; simpl; [lia|].
  destruct (nth_error marks keep); [|lia].
  destruct (nth_error active keep); [|lia].
  destruct (markEq m m0); [|lia].
  specialize (IH (S keep)). lia.
Qed.

Lemma keepOf_bound (node : option Node) (active : list Mark) :
  keepOf node active <= List.length active
  /\ keepOf node active <= markLen (marksOf node).
Proof.
  unfold keepOf.
  pose proof (keepLoop_bound
                (Nat.min (List.length active) (markLen (marksOf node))) 0
                (reordered node active) active).
  lia.
Qed.

Lemma pop_snoc {A : Type} (l : list A) (x : A) : pop (l ++ [x]) = Some (x, l).
Proof. unfold pop. rewrite rev_app_distr. simpl. now rewrite rev_involutive. Qed.

Lemma runEvents_app (e1 e2 : list InlineEvent) (st : MarkdownSerializer) :
  runEvents (e1 ++ e2) st = runEvents e2 (runEvents e1 st).
Proof. revert st. induction e1 as [|e e1 IH]; intros st; simpl; auto. Qed.

Lemma closeLoop_app (suf pre : list Mark) (st : MarkdownSerializer) :
  closeLoop (List.length suf) st (pre ++ suf)
  = (runEvents (map EvClose (rev suf)) st, pre).
Proof.
  revert st. induction suf as [|x suf IH] using rev_ind; intros st.
  - simpl. now rewrite app_nil_r.
  - rewrite length_app, Nat.add_comm. simpl.
    rewrite app_assoc, pop_snoc, IH, rev_app_distr. reflexivity.
Qed.

Lemma closeLoop_events (keep : nat) (st : MarkdownSerializer) (active : list Mark) :
  keep <= List.length active ->
  closeLoop (List.length active - keep) st active
  = (runEvents (map EvClose (rev (skipn keep active))) st, firstn keep active).
Proof.
  intros H. rewrite <- (firstn_skipn keep active) at 2.
  rewrite <- (length_skipn keep active). apply closeLoop_app.
Qed.

Lemma skipn_nth_error {A : Type} (l : list A) (a : nat) (x : A) :
  nth_error l a = Some x -> skipn a l = x :: skipn (S a) l.
Proof.
  revert a. induction l as [|y l IH]; intros [|a] H; simpl in *; try discriminate.
  - now inversion H.
  - now apply IH.
Qed.

Lemma openLoop_events (k : nat) (marks : list Mark)
      (st : MarkdownSerializer) (active : list Mark) :
  List.length active + k <= List.length marks ->
  openLoop k marks st active
  = (runEvents (map EvOpen (slice (List.length active) (List.length active + k) marks)) st,
     (active ++ slice (List.length active) (List.length active + k) marks)%list).
Proof.
  revert st active. induction k as [|k IH]; intros st active H.
  - unfold slice. rewrite Nat.add_0_r, Nat.sub_diag. simpl. now rewrite app_nil_r.
  - simpl.
    destruct (nth_error marks (List.length active)) as [add|] eqn:E.
    + rewrite IH by (rewrite length_app; simpl; lia).
      rewrite length_app. simpl List.length.
      unfold slice.
      replace (List.length active + S k - List.length active) with (S k) by lia.
      replace (List.length active + 1 + k - (List.length active + 1)) with k by lia.
      rewrite (skipn_nth_error marks _ _ E). simpl.
      replace (List.length active + 1) with (S (List.length active)) by lia.
      now rewrite <- app_assoc.
    + apply nth_error_None in E. lia.
Qed.

Lemma progress_events (node : option Node)
      (st : MarkdownSerializer) (active : list Mark) :
  progress node st active
  = (runEvents (progressEvents node active) st, nextActive node active).
Proof.
  unfold progress, progressWith.
  fold (marksOf node). fold (markLen (marksOf node)).
  fold (reordered node active). fold (keepOf node active).
  destruct (keepOf_bound node active) as [K1 K2].
  pose proof (reordered_length node active) as RL.
  rewrite (closeLoop_events _ st active K1).
  assert (LF : List.length (firstn (keepOf node active) active) = keepOf node active).
  { rewrite length_firstn. lia. }
  assert (OL := openLoop_events (markLen (marksOf node) - keepOf node active)
                  (reordered node active)
                  (runEvents (map EvClose (rev (skipn (keepOf node active) active))) st)
                  (firstn (keepOf node active) active)).
  rewrite LF in OL.
  replace (keepOf node active + (markLen (marksOf node) - keepOf node active))
    with (markLen (marksOf node)) in OL by lia.
  rewrite LF, OL by lia.
  unfold progressEvents, nextActive, closedMarks, openedMarks.
  rewrite !runEvents_app.
  destruct node as [n|]; simpl; [|reflexivity].
  destruct (codeMark (nodeMarks n)); [destruct (isText n)|]; reflexivity.
Qed.

Lemma inlineLoop_events (children : list Node)
      (st : MarkdownSerializer) (active : list Mark) :
  fst (let '(st', active') := inlineLoop children st active in
       progress None st' active')
  = runEvents (inlineEvents children active) st.
Proof.
  revert st active. induction children as [|c rest IH]; intros st active.
  - simpl. now rewrite progress_events.
  - simpl. fold progress. rewrite progress_events.
    fold inlineLoop. rewrite IH. now rewrite runEvents_app.
Qed.

Lemma renderInline_events (children : list Node) (st : MarkdownSerializer) :
  renderInline children st = runEvents (inlineEvents children []) st.
Proof.
  rewrite <- inlineLoop_events.
  unfold renderInline, renderInlineWith, inlineLoop, progress.
  now destruct (inlineLoopWith render children st []).
Qed.

(** ** Nesting of the opened and closed marks *)

Lemma WellNested_app (a b c : list Mark) (e1 e2 : list InlineEvent) :
  WellNested a e1 b -> WellNested b e2 c -> WellNested a (e1 ++ e2) c.
Proof.
  intros H. revert e2 c. induction H; intros e2 c' H2; simpl;
    try (constructor; auto); auto.
Qed.

Lemma WellNested_closes (pre suf : list Mark) :
  WellNested (pre ++ suf) (map EvClose (rev suf)) pre.
Proof.
  induction suf as [|x suf IH] using rev_ind.
  - rewrite app_nil_r. constructor.
  - rewrite rev_app_distr, app_assoc. simpl. now constructor.
Qed.

Lemma WellNested_opens (s l : list Mark) : WellNested s (map EvOpen l) (s ++ l).
Proof.
  revert s. induction l as [|x l IH]; intros s; simpl.
  - rewrite app_nil_r. constructor.
  - constructor. specialize (IH (s ++ [x])%list). now rewrite <- app_assoc in IH.
Qed.

Lemma WellNested_child (s : list Mark) (node : option Node) :
  WellNested s (childEvent node) s.
Proof.
  destruct node as [n|]; simpl; [|constructor].
  destruct (codeMark (nodeMarks n)); [destruct (isText n)|];
    repeat constructor.
Qed.

Lemma progressEvents_nested (node : option Node) (active : list Mark) :
  WellNested active (progressEvents node active) (nextActive node active).
Proof.
  unfold progressEvents, nextActive, closedMarks.
  apply WellNested_app with (b := firstn (keepOf node active) active).
  - rewrite <- (firstn_skipn (keepOf node active) active) at 1.
    apply WellNested_closes.
  - apply WellNested_app with
      (b := (firstn (keepOf node active) active ++ openedMarks node active)%list).
    + apply WellNested_opens.
    + apply WellNested_child.
Qed.

Lemma keepOf_none (active : list Mark) : keepOf None active = 0.
Proof.
  destruct (keepOf_bound None active) as [_ H].
  change (markLen (marksOf None)) with 0 in H. lia.
Qed.

Lemma progressEvents_none (active : list Mark) :
  progressEvents None active = map EvClose (rev active)
  /\ nextActive None active = [].
Proof.
  unfold progressEvents, nextActive, closedMarks, openedMarks.
  rewrite keepOf_none. simpl. unfold slice. simpl.
  now rewrite app_nil_r.
Qed.

Lemma inlineEvents_nested (children : list Node) (active : list Mark) :
  WellNested active (inlineEvents children active) [].
Proof.
  revert active. induction children as [|c rest IH]; intros active; simpl.
  - pose proof (progressEvents_nested None active) as H.
    now rewrite (proj2 (progressEvents_none active)) in H.
  - eapply WellNested_app; [apply progressEvents_nested | apply IH].
Qed.

Lemma WellNested_count (p : Mark -> bool) (s s' : list Mark)
      (es : list InlineEvent) :
  WellNested s es s' ->
  List.length (filter p s) + countOpen p es
  = countClose p es + List.length (filter p s').
Proof.
  induction 1; simpl; try lia.
  - rewrite filter_app, length_app in IHWellNested. simpl in IHWellNested.
    destruct (p m); simpl in *; lia.
  - rewrite filter_app, length_app. simpl.
    destruct (p m); simpl in *; lia.
Qed.

(** C2. [renderInline] emits exactly the trace [inlineEvents] of opening
    markup, closing markup and rendered children. In that trace every
    closing event closes the mark that was opened last and is still
    open, and after the step without a child no mark is left open; so
    every opened mark is closed once, marks are closed in the reverse of
    the order in which they were opened, and for any set of marks the
    trace has as many opening as closing events. The step without a
    child closes the whole active stack, innermost first. *)
Theorem inline_marks_balanced :
  forall (children : list Node) (st : MarkdownSerializer) (active : list Mark)
         (p : Mark -> bool),
    renderInline children st = runEvents (inlineEvents children []) st
    /\ WellNested [] (inlineEvents children []) []
    /\ countOpen p (inlineEvents children [])
       = countClose p (inlineEvents children [])
    /\ progress None st active
       = (runEvents (map EvClose (rev active)) st, [])
    /\ inlineEvents [txt "a" [em]; txt "b" [em; strong]; txt "c" [strong]] []
       = [EvOpen em; EvRender (txt "a" [em]);
          EvOpen strong; EvRender (txt "b" [em; strong]);
          EvClose strong; EvClose em; EvOpen strong;
          EvRender (txt "c" [strong]);
          EvClose strong].
Proof.
  intros children st active p.
  split; [apply renderInline_events|].
  split; [apply inlineEvents_nested|].
  split.
  - pose proof (WellNested_count p _ _ _ (inlineEvents_nested children [])) as H.
    simpl in H. lia.
  - split; [|reflexivity].
    rewrite progress_events.
    now destruct (progressEvents_none active) as [-> ->].
Qed.

(** ** The reordering pass *)

Lemma optStringEqb_refl (a : option string) : optStringEqb a a = true.
Proof. destruct a; simpl; [apply String.eqb_refl | reflexivity]. Qed.

Lemma markEq_refl (m : Mark) : markEq m m = true.
Proof. unfold markEq. now rewrite !String.eqb_refl, optStringEqb_refl. Qed.

Lemma optStringEqb_sym (a b : option string) : optStringEqb a b = optStringEqb b a.
Proof. destruct a, b; simpl; auto using String.eqb_sym. Qed.

Lemma markEq_sym (a b : Mark) : markEq a b = markEq b a.
Proof.
  unfold markEq.
  now rewrite (String.eqb_sym (markName (markType a))),
              (String.eqb_sym (href (markAttrs a))),
              (optStringEqb_sym (linkTitle (markAttrs a))).
Qed.

Lemma findActive_here (m x : Mark) (l : list Mark) (j : nat) :
  markdownMixable (markType x) = true -> markEq m x = true ->
  findActive m (x :: l) j = Some j.
Proof. intros Hx He. simpl. now rewrite Hx, He. Qed.

Lemma findActive_next (m x : Mark) (l : list Mark) (j : nat) :
  markdownMixable (markType x) = true -> markEq m x = false ->
  findActive m (x :: l) j = findActive m l (S j).
Proof. intros Hx He. simpl. now rewrite Hx, He. Qed.

Lemma reorderLoop_step (k i len : nat) (active marks : list Mark) (mark : Mark) :
  nth_error marks i = Some mark ->
  markdownMixable (markType mark) = true ->
  reorderLoop (S k) i len active marks
  = reorderLoop k (S i) len active
      (match findActive mark active 0 with
       | Some j => moveMark marks mark i j len
       | None => marks
       end).
Proof. intros E M. simpl. now rewrite E, M. Qed.

(** Marks that equal no mark of [active] are left where they are. *)
Lemma reorderLoop_nomatch (k len : nat) (active pre post : list Mark) :
  Forall (fun m => findActive m active 0 = None) post ->
  reorderLoop k (List.length pre) len active (pre ++ post) = (pre ++ post)%list.
Proof.
  revert pre post. induction k as [|k IH]; intros pre post F; [reflexivity|].
  simpl. destruct post as [|m post].
  - rewrite app_nil_r.
    now rewrite (proj2 (nth_error_None pre (List.length pre)) (Nat.le_refl _)).
  - rewrite nth_error_app2, Nat.sub_diag by lia. simpl.
    destruct (negb (markdownMixable (markType m))); [reflexivity|].
    inversion F as [|? ? Fm Fpost]; subst. rewrite Fm.
    specialize (IH (pre ++ [m])%list post Fpost).
    rewrite length_app, Nat.add_comm in IH. simpl in IH.
    now rewrite <- app_assoc in IH.
Qed.

Lemma Forall_firstn {A : Type} (P : A -> Prop) (k : nat) (l : list A) :
  Forall P l -> Forall P (firstn k l).
Proof.
  revert k. induction l as [|x l IH]; intros [|k] F; simpl; auto.
  inversion F; subst. constructor; auto.
Qed.

Lemma keepLoop_prefix (l pre tail : list Mark) :
  keepLoop (List.length l) (List.length pre) (pre ++ l ++ tail) (pre ++ l)
  = List.length pre + List.length l.
Proof.
  revert pre. induction l as [|x l IH]; intros pre; simpl; [lia|].
  rewrite !nth_error_app2, Nat.sub_diag by lia. simpl.
  rewrite markEq_refl.
  specialize (IH (pre ++ [x])%list).
  rewrite length_app, Nat.add_comm in IH. simpl in IH.
  rewrite <- !app_assoc in IH. simpl in IH. rewrite IH. lia.
Qed.

(** When the reordering pass leaves the marks of [active] at the head of
    the node's marks, [progress] closes nothing. *)
Lemma closedMarks_prefix (node : option Node) (active tail : list Mark) :
  reordered node active = (active ++ tail)%list ->
  List.length active <= markLen (marksOf node) ->
  closedMarks node active = [].
Proof.
  intros R L. unfold closedMarks, keepOf. rewrite R.
  rewrite Nat.min_l by exact L.
  pose proof (keepLoop_prefix active [] tail) as K. simpl in K.
  rewrite K. now rewrite skipn_all.
Qed.

Lemma markLen_single (x : Mark) :
  isCode (markType x) = false -> markLen [x] = 1.
Proof. intros H. unfold markLen, codeMark. simpl. now rewrite H. Qed.

Lemma markLen_pair (a b : Mark) :
  isCode (markType b) = false -> markLen [a; b] = 2.
Proof. intros H. unfold markLen, codeMark. simpl. now rewrite H. Qed.

Lemma markLen_ge (marks : list Mark) : List.length marks - 1 <= markLen marks.
Proof. unfold markLen. destruct (codeMark marks); lia. Qed.

Section TwoMixableMarks.

Variables x y : Mark.
Hypothesis Mx : markdownMixable (markType x) = true.
Hypothesis My : markdownMixable (markType y) = true.
Hypothesis Cx : isCode (markType x) = false.
Hypothesis Cy : isCode (markType y) = false.
Hypothesis Nxy : markEq x y = false.

Variable rest : list Mark.
Hypothesis Hrest :
  forall m, In m rest -> markEq m x = false /\ markEq m y = false.

Let Nyx : markEq y x = false.
Proof. now rewrite markEq_sym. Qed.

Lemma rest_nomatch_one :
  Forall (fun m => findActive m [x] 0 = None) rest.
Proof.
  apply Forall_forall. intros m Hm. destruct (Hrest m Hm) as [H1 _].
  now rewrite (findActive_next m x [] 0 Mx H1).
Qed.

Lemma rest_nomatch_two :
  Forall (fun m => findActive m [x; y] 0 = None) rest.
Proof.
  apply Forall_forall. intros m Hm. destruct (Hrest m Hm) as [H1 H2].
  rewrite (findActive_next m x [y] 0 Mx H1).
  now rewrite (findActive_next m y [] 1 My H2).
Qed.

Lemma markLen_one_more : exists k, markLen (x :: rest) = S k.
Proof.
  destruct rest as [|r rest'].
  - exists 0. now apply markLen_single.
  - pose proof (markLen_ge (x :: r :: rest')) as H. simpl in H.
    destruct (markLen (x :: r :: rest')) as [|k]; [lia | now exists k].
Qed.

Lemma markLen_two_more (a b : Mark) :
  isCode (markType b) = false ->
  exists k, markLen (a :: b :: rest) = S (S k).
Proof.
  intros Cb. destruct rest as [|r rest'].
  - exists 0. now apply markLen_pair.
  - pose proof (markLen_ge (a :: b :: r :: rest')) as H. simpl in H.
    destruct (markLen (a :: b :: r :: rest')) as [|[|k]]; [lia | lia | now exists k].
Qed.

(** [active = [x]], the node carries [x] first. *)
Lemma reordered_x_first (n : Node) :
  nodeMarks n = x :: rest ->
  reordered (Some n) [x] = ([x] ++ rest)%list
  /\ 1 <= markLen (x :: rest).
Proof.
  intros E. unfold reordered. simpl marksOf. rewrite E.
  destruct markLen_one_more as [k Hk]. rewrite Hk. split; [|lia].
  rewrite (reorderLoop_step k 0 (S k) [x] (x :: rest) x eq_refl Mx).
  rewrite (findActive_here x x [] 0 Mx (markEq_refl x)).
  unfold moveMark. simpl.
  apply (reorderLoop_nomatch k (S k) [x] [x] rest rest_nomatch_one).
Qed.

(** [active = [x]], the node carries [x] and then [y]. *)
Lemma reordered_x_then_y (n : Node) :
  nodeMarks n = x :: y :: rest ->
  reordered (Some n) [x] = ([x] ++ y :: rest)%list
  /\ 1 <= markLen (x :: y :: rest).
Proof.
  intros E. unfold reordered. simpl marksOf. rewrite E.
  destruct (markLen_two_more x y Cy) as [k Hk]. rewrite Hk. split; [|lia].
  rewrite (reorderLoop_step (S k) 0 _ [x] (x :: y :: rest) x eq_refl Mx).
  rewrite (findActive_here x x [] 0 Mx (markEq_refl x)).
  unfold moveMark. simpl Nat.ltb. cbv iota.
  rewrite (reorderLoop_step k 1 _ [x] (x :: y :: rest) y eq_refl My).
  rewrite (findActive_next y x [] 0 Mx Nyx). simpl findActive.
  apply (reorderLoop_nomatch k (S (S k)) [x] [x; y] rest rest_nomatch_one).
Qed.

(** [active = [x]], the node carries [y] and then [x]: [x] is moved to
    the front. *)
Lemma reordered_y_then_x (n : Node) :
  nodeMarks n = y :: x :: rest ->
  reordered (Some n) [x] = ([x] ++ y :: firstn (markLen (y :: x :: rest) - 2) rest)%list
  /\ 1 <= markLen (y :: x :: rest).
Proof.
  intros E. unfold reordered. simpl marksOf. rewrite E.
  destruct (markLen_two_more y x Cx) as [k Hk]. rewrite Hk. split; [|lia].
  rewrite (reorderLoop_step (S k) 0 _ [x] (y :: x :: rest) y eq_refl My).
  rewrite (findActive_next y x [] 0 Mx Nyx). simpl findActive.
  rewrite (reorderLoop_step k 1 _ [x] (y :: x :: rest) x eq_refl Mx).
  rewrite (findActive_here x x [] 0 Mx (markEq_refl x)).
  unfold moveMark, slice. simpl. rewrite ?Nat.sub_0_r.
  apply (reorderLoop_nomatch k (S (S k)) [x] [x; y] (firstn k rest)).
  apply Forall_firstn, rest_nomatch_one.
Qed.

(** [active = [x; y]], the node carries [x] and then [y]. *)
Lemma reordered_xy_same (n : Node) :
  nodeMarks n = x :: y :: rest ->
  reordered (Some n) [x; y] = ([x; y] ++ rest)%list
  /\ 2 <= markLen (x :: y :: rest).
Proof.
  intros E. unfold reordered. simpl marksOf. rewrite E.
  destruct (markLen_two_more x y Cy) as [k Hk]. rewrite Hk. split; [|lia].
  rewrite (reorderLoop_step (S k) 0 _ [x; y] (x :: y :: rest) x eq_refl Mx).
  rewrite (findActive_here x x [y] 0 Mx (markEq_refl x)).
  unfold moveMark. simpl Nat.ltb. cbv iota.
  rewrite (reorderLoop_step k 1 _ [x; y] (x :: y :: rest) y eq_refl My).
  rewrite (findActive_next y x [y] 0 Mx Nyx).
  rewrite (findActive_here y y [] 1 My (markEq_refl y)).
  simpl Nat.ltb. cbv iota.
  apply (reorderLoop_nomatch k (S (S k)) [x; y] [x; y] rest rest_nomatch_two).
Qed.

(** [active = [x; y]], the node carries [y] and then [x]: the pass puts
    the two marks in the order of [active]. *)
Lemma reordered_xy_swapped (n : Node) :
  nodeMarks n = y :: x :: rest ->
  reordered (Some n) [x; y]
  = ([x; y] ++ firstn (markLen (y :: x :: rest) - 2)
                      (firstn (markLen (y :: x :: rest) - 2) rest))%list
  /\ 2 <= markLen (y :: x :: rest).
Proof.
  intros E. unfold reordered. simpl marksOf. rewrite E.
  destruct (markLen_two_more y x Cx) as [k Hk]. rewrite Hk. split; [|lia].
  rewrite (reorderLoop_step (S k) 0 _ [x; y] (y :: x :: rest) y eq_refl My).
  rewrite (findActive_next y x [y] 0 Mx Nyx).
  rewrite (findActive_here y y [] 1 My (markEq_refl y)).
  unfold moveMark at 1. unfold slice.
  cbn [Nat.ltb Nat.leb firstn skipn app Nat.sub Nat.add]. rewrite ?Nat.sub_0_r.
  rewrite (reorderLoop_step k 1 _ [x; y] (y :: x :: firstn k rest) x eq_refl Mx).
  rewrite (findActive_here x x [y] 0 Mx (markEq_refl x)).
  unfold moveMark, slice. simpl. rewrite ?Nat.sub_0_r.
  apply (reorderLoop_nomatch k (S (S k)) [x; y] [x; y] (firstn k (firstn k rest))).
  apply Forall_firstn, Forall_firstn, rest_nomatch_two.
Qed.

Lemma markLen_head_more (a : Mark) :
  isCode (markType a) = false -> exists k, markLen (a :: rest) = S k.
Proof.
  intros Ca. destruct rest as [|r rest'].
  - exists 0. now apply markLen_single.
  - pose proof (markLen_ge (a :: r :: rest')) as H. simpl in H.
    destruct (markLen (a :: r :: rest')) as [|k]; [lia | now exists k].
Qed.

(** [active = [x; y]], the node carries [x] but not [y]. *)
Lemma reordered_xy_outer_only (n : Node) :
  nodeMarks n = x :: rest ->
  reordered (Some n) [x; y] = x :: rest.
Proof.
  intros E. unfold reordered. simpl marksOf. rewrite E.
  destruct (markLen_head_more x Cx) as [k Hk]. rewrite Hk.
  rewrite (reorderLoop_step k 0 (S k) [x; y] (x :: rest) x eq_refl Mx).
  rewrite (findActive_here x x [y] 0 Mx (markEq_refl x)).
  unfold moveMark. simpl.
  apply (reorderLoop_nomatch k (S k) [x; y] [x] rest rest_nomatch_two).
Qed.

(** [active = [x; y]], the node carries [y] but not [x]: the pass finds
    [y] at index 1 of [active] and leaves it at the head of the marks. *)
Lemma reordered_xy_inner_only (n : Node) :
  nodeMarks n = y :: rest ->
  reordered (Some n) [x; y] = y :: firstn (markLen (y :: rest) - 1) rest.
Proof.
  intros E. unfold reordered. simpl marksOf. rewrite E.
  destruct (markLen_head_more y Cy) as [k Hk]. rewrite Hk.
  rewrite (reorderLoop_step k 0 (S k) [x; y] (y :: rest) y eq_refl My).
  rewrite (findActive_next y x [y] 0 Mx Nyx).
  rewrite (findActive_here y y [] 1 My (markEq_refl y)).
  unfold moveMark, slice. simpl. rewrite ?Nat.sub_0_r.
  apply (reorderLoop_nomatch k (S k) [x; y] [y] (firstn k rest)).
  apply Forall_firstn, rest_nomatch_two.
Qed.

(** The outer mark goes on and the inner one ends: only the inner mark
    is closed. *)
Lemma closedMarks_outer_only (n : Node) :
  nodeMarks n = x :: rest -> closedMarks (Some n) [x; y] = [y].
Proof.
  intros E. unfold closedMarks, keepOf.
  rewrite (reordered_xy_outer_only n E). simpl marksOf. rewrite E.
  destruct (markLen_head_more x Cx) as [k Hk]. rewrite Hk.
  destruct k as [|k].
  - simpl. now rewrite markEq_refl.
  - change (Nat.min (List.length [x; y]) (S (S k))) with (S (S (Nat.min 0 k))).
    cbn [keepLoop nth_error]. rewrite markEq_refl.
    destruct rest as [|r rest']; [reflexivity|].
    destruct (Hrest r (or_introl eq_refl)) as [_ H2]. now rewrite H2.
Qed.

(** The inner mark goes on and the outer one ends: both are closed and
    the inner one is the first mark opened again. *)
Lemma closedMarks_inner_only (n : Node) :
  nodeMarks n = y :: rest ->
  closedMarks (Some n) [x; y] = [y; x]
  /\ firstn 1 (openedMarks (Some n) [x; y]) = [y].
Proof.
  intros E.
  assert (K : keepOf (Some n) [x; y] = 0).
  { unfold keepOf. rewrite (reordered_xy_inner_only n E). simpl marksOf.
    rewrite E. destruct (markLen_head_more y Cy) as [k Hk]. rewrite Hk.
    change (Nat.min (List.length [x; y]) (S k)) with (S (Nat.min 1 k)).
    cbn [keepLoop nth_error]. now rewrite Nyx. }
  unfold closedMarks, openedMarks. rewrite K. split; [reflexivity|].
  rewrite (reordered_xy_inner_only n E). simpl marksOf. rewrite E.
  destruct (markLen_head_more y Cy) as [k Hk]. rewrite Hk. reflexivity.
Qed.

End TwoMixableMarks.

(** What [progress] does with the marks it closes and opens. *)
Lemma progress_closes_then_opens (node : option Node)
      (st : MarkdownSerializer) (active : list Mark) :
  progress node st active
  = (runEvents (map EvClose (closedMarks node active)
                ++ map EvOpen (openedMarks node active)
                ++ childEvent node) st,
     (firstn (List.length active - List.length (closedMarks node active)) active
      ++ openedMarks node active)%list).
Proof.
  rewrite progress_events. unfold progressEvents, nextActive, closedMarks.
  rewrite length_rev, length_skipn.
  destruct (keepOf_bound node active) as [K _].
  now replace (List.length active - (List.length active - keepOf node active))
    with (keepOf node active) by lia.
Qed.

(** C8 (as amended). Let [x] and [y] be two distinct mixable marks, such
    as emphasis and strong, and let the next node carry them at the head
    of its mark list. A mark of the pair that is active and carried by
    the next node is kept open: when one mark is active and the node
    carries it alone or with the other mark in either order, and when
    both are active and the node carries both in either order, the call
    of [progress] closes nothing; when both are active and the node
    carries only the one opened first, only the other one is closed. The
    exception is the mark opened second when the node carries it without
    the one opened first: both are closed and it is opened again. In
    every case [progress] writes the closing markup of the closed marks,
    then the opening markup of the opened marks, then the node. *)
Theorem mixable_prefix_is_kept_open :
  forall (x y : Mark) (rest : list Mark) (n : Node),
    markdownMixable (markType x) = true ->
    markdownMixable (markType y) = true ->
    isCode (markType x) = false ->
    isCode (markType y) = false ->
    markEq x y = false ->
    (forall m, In m rest -> markEq m x = false /\ markEq m y = false) ->
    (nodeMarks n = x :: rest -> closedMarks (Some n) [x] = [])
    /\ (nodeMarks n = x :: y :: rest -> closedMarks (Some n) [x] = [])
    /\ (nodeMarks n = y :: x :: rest ->
        closedMarks (Some n) [x] = []
        /\ firstn 1 (reordered (Some n) [x]) = [x])
    /\ (nodeMarks n = x :: y :: rest -> closedMarks (Some n) [x; y] = [])
    /\ (nodeMarks n = y :: x :: rest ->
        closedMarks (Some n) [x; y] = []
        /\ firstn 2 (reordered (Some n) [x; y]) = [x; y])
    /\ (nodeMarks n = x :: rest -> closedMarks (Some n) [x; y] = [y])
    /\ (nodeMarks n = y :: rest ->
        closedMarks (Some n) [x; y] = [y; x]
        /\ firstn 1 (openedMarks (Some n) [x; y]) = [y])
    /\ (forall (active : list Mark) (st : MarkdownSerializer),
           progress (Some n) st active
           = (runEvents (map EvClose (closedMarks (Some n) active)
                         ++ map EvOpen (openedMarks (Some n) active)
                         ++ childEvent (Some n)) st,
              (firstn (List.length active
                       - List.length (closedMarks (Some n) active)) active
               ++ openedMarks (Some n) active)%list))
    /\ (forall (active : list Mark) (st : MarkdownSerializer),
           closedMarks (Some n) active = [] ->
           progress (Some n) st active
           = (runEvents (map EvOpen (openedMarks (Some n) active)
                         ++ childEvent (Some n)) st,
              (active ++ openedMarks (Some n) active)%list))
    /\ inlineEvents [txt "a" [strong]; txt "b" [em; strong]] []
       = [EvOpen strong; EvRender (txt "a" [strong]);
          EvOpen em; EvRender (txt "b" [em; strong]);
          EvClose em; EvClose strong]
    /\ toMarkdown (docOf [para [txt "a" [strong]; txt "b" [em; strong]]]) None
       = "**a*b***"
    /\ toMarkdown (docOf [para [txt "a" [strong]; txt "b" [strong; em]]]) None
       = "**a*b***"
    /\ toMarkdown (docOf [para [txt "a" [em; strong]; txt "b" [strong; em]]]) None
       = "***ab***"
    /\ toMarkdown (docOf [para [txt "a" [em; strong]; txt "b" [em]]]) None
       = "***a**b*"
    /\ toMarkdown (docOf [para [txt "a" [em; strong]; txt "b" [strong]]]) None
       = "***a*****b**".
Proof.
  intros x y rest n Mx My Cx Cy Nxy Hrest.
  split; [|split; [|split; [|split; [|split; [|split; [|split; [|split;
    [|split; [|repeat split]]]]]]]]].
  - intros E.
    destruct (reordered_x_first x y Mx Cx rest Hrest n E) as [R L].
    apply (closedMarks_prefix (Some n) [x] rest R). simpl marksOf. now rewrite E.
  - intros E.
    destruct (reordered_x_then_y x y Mx My Cy Nxy rest Hrest n E) as [R L].
    apply (closedMarks_prefix (Some n) [x] (y :: rest) R). simpl marksOf.
    now rewrite E.
  - intros E.
    destruct (reordered_y_then_x x y Mx My Cx Nxy rest Hrest n E) as [R L].
    split.
    + apply (closedMarks_prefix (Some n) [x] _ R). simpl marksOf. now rewrite E.
    + now rewrite R.
  - intros E.
    destruct (reordered_xy_same x y Mx My Cy Nxy rest Hrest n E) as [R L].
    apply (closedMarks_prefix (Some n) [x; y] rest R). simpl marksOf.
    now rewrite E.
  - intros E.
    destruct (reordered_xy_swapped x y Mx My Cx Nxy rest Hrest n E) as [R L].
    split.
    + apply (closedMarks_prefix (Some n) [x; y] _ R). simpl marksOf.
      now rewrite E.
    + now rewrite R.
  - intros E. exact (closedMarks_outer_only x y Mx My Cx rest Hrest n E).
  - intros E. exact (closedMarks_inner_only x y Mx My Cy Nxy rest Hrest n E).
  - intros active st. apply progress_closes_then_opens.
  - intros active st C. rewrite progress_closes_then_opens, C.
    simpl. now rewrite Nat.sub_0_r, firstn_all.
Qed.

Lemma mixable_prefix_is_kept_open_witness :
  closedMarks (Some (txt "b" [em; strong])) [strong] = []
  /\ closedMarks (Some (txt "b" [em; strong])) [strong; em] = []
  /\ closedMarks (Some (txt "b" [em])) [em; strong] = [strong]
  /\ closedMarks (Some (txt "b" [strong])) [em; strong] = [strong; em].
Proof.
  pose proof (mixable_prefix_is_kept_open strong em [] (txt "b" [em; strong])
                eq_refl eq_refl eq_refl eq_refl eq_refl
                (fun m (H : In m []) => match H with end)) as H.
  destruct H as (_ & _ & H3 & _ & H5 & _).
  pose proof (mixable_prefix_is_kept_open em strong [] (txt "b" [em])
                eq_refl eq_refl eq_refl eq_refl eq_refl
                (fun m (H : In m []) => match H with end)) as G.
  destruct G as (_ & _ & _ & _ & _ & G6 & _).
  pose proof (mixable_prefix_is_kept_open em strong [] (txt "b" [strong])
                eq_refl eq_refl eq_refl eq_refl eq_refl
                (fun m (H : In m []) => match H with end)) as J.
  destruct J as (_ & _ & _ & _ & _ & _ & J7 & _).
  split; [exact (proj1 (H3 eq_refl))|].
  split; [exact (proj1 (H5 eq_refl))|].
  split; [exact (G6 eq_refl)|].
  exact (proj1 (J7 eq_refl)).
Defined.

(** C8, the claim as stated fails when the outer of two open marks ends
    and the inner one goes on: with emphasis opened before strong, a
    next node that is only strong gets strong closed, emphasis closed,
    and strong opened again. *)
Lemma inner_mixable_mark_is_closed_and_reopened :
  ~ (forall (active : list Mark) (n : Node) (m : Mark),
        In m active ->
        markdownMixable (markType m) = true ->
        existsb (markEq m) (nodeMarks n) = true ->
        ~ In m (closedMarks (Some n) active)).
Proof.
  intros H.
  apply (H [em; strong] (txt "b" [strong]) strong).
  - right. left. reflexivity.
  - reflexivity.
  - reflexivity.
  - left. reflexivity.
Qed.

Lemma inner_mixable_mark_reopened_output :
  progressEvents (Some (txt "b" [strong])) [em; strong]
  = [EvClose strong; EvClose em; EvOpen strong; EvRender (txt "b" [strong])]
  /\ toMarkdown (docOf [para [txt "a" [em; strong]; txt "b" [strong]]]) None
     = "***a*****b**".
Proof. split; reflexivity. Qed.

(** ** The code-mark case of [progress] *)

Lemma progress_literal (n : Node) (c : Mark) (active : list Mark) :
  codeMark (nodeMarks n) = Some c -> isText n = true ->
  progressEvents (Some n) active
  = (map EvClose (closedMarks (Some n) active)
     ++ map EvOpen (openedMarks (Some n) active)
     ++ [EvLiteral c n])%list.
Proof.
  intros C T. unfold progressEvents, childEvent. now rewrite C, T.
Qed.

(** C1, the code at a literal mark whose opening and closing markup
    differ: the unit is written unescaped and in one call of [text], but
    it starts with the closing markup and ends with the opening markup.
    With the built-in code mark both are a backquote and the output is
    the expected one. *)
Theorem literal_unit_starts_with_closing_markup :
  codeMark (nodeMarks (txt "a*b" [tagCode])) = Some tagCode
  /\ progressEvents (Some (txt "a*b" [tagCode])) []
     = [EvLiteral tagCode (txt "a*b" [tagCode])]
  /\ runEvent (EvLiteral tagCode (txt "a*b" [tagCode])) (newSerializer None)
     = text ("</code>" ++ "a*b" ++ "<code>") false (newSerializer None)
  /\ toMarkdown (docOf [para [txt "a*b" [tagCode]]]) None = "</code>a*b<code>"
  /\ toMarkdown (docOf [para [txt "a*b" [code]]]) None = "`a*b`".
Proof. repeat split. Qed.

(* ================================================================= *)
(** * Further properties of the serializer *)

(** ** Escaping and quoting read back *)

Lemma not_special_not_backslash (c : ascii) :
  isMarkdownSpecial c = false -> Ascii.eqb c BACKSLASH = false.
Proof.
  destruct c as [[] [] [] [] [] [] [] []]; vm_compute; intro H;
    (reflexivity || discriminate H).
Qed.

Lemma lineStart_not_special (c : ascii) :
  isLineStartSpecial c = true -> isMarkdownSpecial c = false.
Proof.
  destruct c as [[] [] [] [] [] [] [] []]; vm_compute; intro H;
    (reflexivity || discriminate H).
Qed.

Lemma unescape_escapeEach (s : string) : unescape (escapeEach s) = s.
Proof.
  induction s as [|c s IH]; [reflexivity|].
  cbn [escapeEach]. destruct (isMarkdownSpecial c) eqn:E.
  - change ("\" ++ String c (escapeEach s))
      with (String BACKSLASH (String c (escapeEach s))).
    cbn [unescape]. rewrite Ascii.eqb_refl. now rewrite IH.
  - change ("" ++ String c (escapeEach s)) with (String c (escapeEach s)).
    cbn [unescape]. rewrite (not_special_not_backslash c E). now rewrite IH.
Qed.

(** X1. Escaping loses nothing: removing the backslash escapes from
    [esc(str, startOfLine)] gives [str] back, for every string and either
    value of the flag. *)
Theorem esc_unescape_round_trip :
  forall (s : string) (startOfLine : bool), unescape (esc s startOfLine) = s.
Proof.
  intros s b. rewrite esc_escapeEach.
  destruct (b && startsLineSpecial s) eqn:E.
  - apply andb_true_iff in E as [_ E].
    destruct s as [|c s]; [discriminate|]. simpl in E.
    cbn [escapeEach]. rewrite (lineStart_not_special c E).
    change ("\" ++ "" ++ String c (escapeEach s))
      with (String BACKSLASH (String c (escapeEach s))).
    cbn [unescape]. rewrite Ascii.eqb_refl. now rewrite unescape_escapeEach.
  - apply unescape_escapeEach.
Qed.

Lemma escapeEach_noSpecial (s : string) : noSpecial s = true -> escapeEach s = s.
Proof.
  induction s as [|c s IH]; [reflexivity|].
  cbn [noSpecial escapeEach]. intros H. apply andb_true_iff in H as [H1 H2].
  apply negb_true_iff in H1. rewrite H1, (IH H2). reflexivity.
Qed.

(** X2. Text without any of the characters backquote, asterisk,
    backslash, tilde, plus and square brackets passes through [esc]
    unchanged when the start-of-line flag is unset, and also when it is
    set unless the text starts with a colon, hash or hyphen. *)
Theorem esc_plain_text_unchanged :
  forall (s : string) (startOfLine : bool),
    noSpecial s = true ->
    startOfLine && startsLineSpecial s = false ->
    esc s startOfLine = s.
Proof.
  intros s b N L. rewrite esc_escapeEach, L. now apply escapeEach_noSpecial.
Qed.

Lemma esc_plain_text_unchanged_witness :
  esc "Title: a-b" true = "Title: a-b".
Proof.
  apply (esc_plain_text_unchanged "Title: a-b" true); reflexivity.
Defined.

Lemma takeUntil_closing (c : ascii) (s : string) :
  lacksChar c s = true -> takeUntil c (s ++ String c "") = Some (s, "").
Proof.
  induction s as [|d s IH]; cbn [lacksChar append takeUntil]; intros H.
  - now rewrite Ascii.eqb_refl.
  - apply andb_true_iff in H as [H1 H2]. apply negb_true_iff in H1.
    rewrite H1, (IH H2). reflexivity.
Qed.

(** X3. A title that lacks a double quote, or lacks a single quote, is
    wrapped by [quote] in a delimiter that does not occur in it: reading
    the result back up to the first closing delimiter returns the title.
    The result is always two characters longer than the title. *)
Theorem quote_read_back :
  forall (s : string),
    lacksChar DQUOTE s || lacksChar SQUOTE s = true ->
    readQuoted (quote s) = Some s
    /\ String.length (quote s) = String.length s + 2.
Proof.
  intros s H. split.
  - unfold quote.
    destruct (lacksChar DQUOTE s) eqn:D.
    + cbn [fst snd append readQuoted].
      change (closingDelimiter DQUOTE) with (Some DQUOTE). cbv iota.
      now rewrite (takeUntil_closing DQUOTE s D).
    + simpl in H. rewrite H. cbn [fst snd append readQuoted].
      change (closingDelimiter SQUOTE) with (Some SQUOTE). cbv iota.
      now rewrite (takeUntil_closing SQUOTE s H).
  - unfold quote.
    destruct (lacksChar DQUOTE s); [|destruct (lacksChar SQUOTE s)];
      cbn [fst snd append String.length]; rewrite length_append;
      cbn [String.length]; lia.
Qed.

Lemma quote_read_back_witness :
  readQuoted (quote (String DQUOTE "x")) = Some (String DQUOTE "x").
Proof.
  exact (proj1 (quote_read_back (String DQUOTE "x") eq_refl)).
Defined.

(** ** The state operations *)

(** X4. [ensureNewLine] leaves the buffer at a blank position, changes
    nothing when it already is at one, and so has no further effect when
    it is called twice. *)
Theorem ensureNewLine_idempotent :
  forall (st : MarkdownSerializer),
    atBlank (ensureNewLine st) = true
    /\ ensureNewLine (ensureNewLine st) = ensureNewLine st
    /\ out (ensureNewLine st) = lineBreakEnsured (out st).
Proof.
  intros st.
  assert (B : atBlank (ensureNewLine st) = true).
  { unfold ensureNewLine. destruct (atBlank st) eqn:E; [exact E|].
    unfold atBlank, emit. simpl. apply endsBlank_nl. }
  split; [exact B|]. split.
  - unfold ensureNewLine at 1. now rewrite B.
  - unfold ensureNewLine, lineBreakEnsured, atBlank.
    now destruct (endsBlank (out st)).
Qed.

Lemma Stable_refl (st : MarkdownSerializer) : Stable st st.
Proof. unfold Stable. repeat split. exists "". now rewrite append_nil_r. Qed.

Lemma Stable_trans (a b c : MarkdownSerializer) :
  Stable a b -> Stable b c -> Stable a c.
Proof.
  intros (D1 & T1 & O1 & x & X1) (D2 & T2 & O2 & y & X2).
  unfold Stable. repeat split; try congruence.
  exists (x ++ y). now rewrite X2, X1, append_assoc.
Qed.

Lemma Stable_emit (s : string) (st : MarkdownSerializer) : Stable st (emit s st).
Proof. unfold Stable. simpl. repeat split. now exists s. Qed.

Lemma Stable_setClosed (c : option Node) (st : MarkdownSerializer) :
  Stable st (setClosed c st).
Proof. unfold Stable. simpl. repeat split. exists "". now rewrite append_nil_r. Qed.

Lemma flushClose_stable (size : option nat) (st : MarkdownSerializer) :
  Stable st (flushClose size st).
Proof.
  destruct st as [o d [c|] tl opts]; [|apply Stable_refl].
  rewrite flushClose_some. unfold Stable. simpl.
  repeat split. unfold lineBreakEnsured.
  destruct (endsBlank o); [|rewrite append_assoc]; eexists; reflexivity.
Qed.

(** X5. Once [flushClose] has run, nothing is pending, so a further
    [flushClose] of any size changes nothing: the first caller decides
    the spacing. In particular the [flushClose()] inside [write] adds no
    blank line after a forced [flushClose(1)] or [flushClose(3)]. *)
Theorem flushClose_absorbs :
  forall (size1 size2 : option nat) (st : MarkdownSerializer),
    closed (flushClose size1 st) = None
    /\ flushClose size2 (flushClose size1 st) = flushClose size1 st
    /\ Stable st (flushClose size1 st).
Proof.
  intros size1 size2 st.
  split; [apply flushClose_closed|]. split.
  - apply flushClose_none, flushClose_closed.
  - apply flushClose_stable.
Qed.

Lemma write_stable (content : option string) (st : MarkdownSerializer) :
  Stable st (write content st).
Proof.
  unfold write.
  eapply Stable_trans; [apply (flushClose_stable None)|].
  set (st1 := flushClose None st).
  destruct (negb (delim st1 =? "") && atBlank st1).
  - eapply Stable_trans; [apply (Stable_emit (delim st1))|].
    destruct (truthy content); [apply Stable_emit | apply Stable_refl].
  - destruct (truthy content); [apply Stable_emit | apply Stable_refl].
Qed.

Lemma write_none_blank (st : MarkdownSerializer) :
  closed st = None -> atBlank st = true ->
  write None st = emit (delim st) st.
Proof.
  intros C B. destruct st as [o d cl tl opts]. simpl in C. subst cl.
  unfold write. rewrite flushClose_none by reflexivity.
  unfold atBlank in *. simpl in *. rewrite B.
  destruct (String.eqb_spec d "") as [E|E]; simpl; [|reflexivity].
  subst d. unfold emit, setOut. simpl. now rewrite append_nil_r.
Qed.

Lemma write_content_last (content : option string) (st : MarkdownSerializer) :
  out (write content st)
  = out (write None st) ++ (if truthy content then orElse content "" else "").
Proof.
  unfold write. simpl truthy. cbv iota.
  destruct (truthy content); [reflexivity | now rewrite append_nil_r].
Qed.

(** X6. [write] only appends to the buffer, with the content last; it
    leaves nothing pending and keeps the prefix, the tight-list flag and
    the options. With nothing pending it writes no spacing: in the middle
    of a line it adds only the content, and at a blank position it adds
    the prefix before the content. *)
Theorem write_effect :
  forall (content : option string) (st : MarkdownSerializer),
    Stable st (write content st)
    /\ closed (write content st) = None
    /\ out (write content st)
       = out (write None st) ++ (if truthy content then orElse content "" else "")
    /\ (closed st = None -> atBlank st = false -> write None st = st)
    /\ (closed st = None -> atBlank st = true ->
        write None st = emit (delim st) st).
Proof.
  intros content st.
  split; [apply write_stable|]. split; [apply write_closed|].
  split; [apply write_content_last|]. split.
  - intros C B. now apply write_none_midline.
  - apply write_none_blank.
Qed.

Lemma write_effect_witness :
  write None (mkState "> a" "> " None false (mkOptions None))
  = mkState "> a" "> " None false (mkOptions None)
  /\ write None (mkState ("> a" ++ nl) "> " None false (mkOptions None))
     = emit "> " (mkState ("> a" ++ nl) "> " None false (mkOptions None)).
Proof.
  split.
  - exact (proj1 (proj2 (proj2 (proj2
             (write_effect None (mkState "> a" "> " None false (mkOptions None))))))
             eq_refl eq_refl).
  - exact (proj2 (proj2 (proj2 (proj2
             (write_effect None
                (mkState ("> a" ++ nl) "> " None false (mkOptions None))))))
             eq_refl eq_refl).
Defined.

(** ** [text] *)

Lemma splitLines_nonempty (s : string) : splitLines s <> [].
Proof.
  destruct s as [|c s]; [discriminate|]. simpl.
  destruct (Ascii.eqb c LF); [discriminate|].
  destruct (splitLines s); discriminate.
Qed.

Lemma splitLines_join (s : string) :
  exists first rest,
    splitLines s = first :: rest /\ first ++ laterLines false "" rest = s.
Proof.
  induction s as [|c s (first & rest & E & J)].
  - exists "", []. split; reflexivity.
  - cbn [splitLines]. destruct (Ascii.eqb_spec c LF) as [L|L].
    + exists "", (first :: rest). rewrite E. split; [reflexivity|].
      cbn [laterLines lineOut append]. unfold nl. cbn [append].
      rewrite J. now subst c.
    + rewrite E. exists (String c first), rest. split; [reflexivity|].
      cbn [append]. now rewrite J.
Qed.

Lemma endsBlank_emit_nl (s : string) (st : MarkdownSerializer) :
  atBlank (emit nl (emit s st)) = true.
Proof. unfold atBlank, emit. simpl. apply endsBlank_nl. Qed.

Lemma textLines_one (escape : bool) (line : string) (st : MarkdownSerializer) :
  textLines [line] escape st
  = emit (lineOut escape (atBlank st || pending st) line) (write None st).
Proof. reflexivity. Qed.

Lemma textLines_more (escape : bool) (line l : string) (lines : list string)
      (st : MarkdownSerializer) :
  textLines (line :: l :: lines) escape st
  = textLines (l :: lines) escape
      (emit nl (emit (lineOut escape (atBlank st || pending st) line)
                     (write None st))).
Proof. reflexivity. Qed.

(** The lines after the first: the loop of [text] entered right after a
    line break with nothing pending. *)
Lemma textLines_after_break (escape : bool) (lines : list string)
      (line : string) (st : MarkdownSerializer) :
  closed st = None -> atBlank st = true ->
  textLines (line :: lines) escape st
  = mkState (out st ++ delim st ++ lineOut escape true line
             ++ laterLines escape (delim st) lines)
            (delim st) None (inTightList st) (options st).
Proof.
  revert line st. induction lines as [|l lines IH]; intros line st C B.
  - rewrite textLines_one, B. cbn [orb]. rewrite (write_none_blank st C B).
    unfold emit, setOut. simpl. rewrite C.
    now rewrite append_nil_r, !append_assoc.
  - rewrite textLines_more, B. cbn [orb]. rewrite (write_none_blank st C B).
    rewrite IH.
    + unfold emit, setOut. simpl. cbn [laterLines].
      now rewrite !append_assoc.
    + unfold emit, setOut. simpl. exact C.
    + apply endsBlank_emit_nl.
Qed.

Lemma text_lines (s : string) (escape : bool) (st : MarkdownSerializer)
      (first : string) (rest : list string) :
  splitLines s = first :: rest ->
  text s escape st
  = mkState (out (write None st)
             ++ lineOut escape (atBlank st || pending st) first
             ++ laterLines escape (delim st) rest)
            (delim st) None (inTightList st) (options st).
Proof.
  intros E. unfold text. rewrite E.
  pose proof (write_stable None st) as (D & T & O & _).
  pose proof (write_closed None st) as C.
  destruct rest as [|l rest].
  - rewrite textLines_one. cbn [laterLines]. unfold emit, setOut. simpl.
    rewrite D, T, O, C. now rewrite append_nil_r.
  - rewrite textLines_more, textLines_after_break.
    + unfold emit, setOut. simpl. rewrite D, T, O.
      cbn [laterLines]. now rewrite !append_assoc.
    + unfold emit, setOut. simpl. exact C.
    + apply endsBlank_emit_nl.
Qed.

(** X7. [text] writes the first line where [write()] leaves the buffer,
    escaped as the start of a line exactly when the buffer was at a blank
    position or a block was pending, and every later line after a line
    break and the current prefix, escaped as the start of a line. It
    leaves nothing pending and keeps the prefix, the tight-list flag and
    the options. *)
Theorem text_line_by_line :
  forall (s : string) (escape : bool) (st : MarkdownSerializer),
    exists first rest,
      splitLines s = first :: rest
      /\ first ++ laterLines false "" rest = s
      /\ text s escape st
         = mkState (out (write None st)
                    ++ lineOut escape (atBlank st || pending st) first
                    ++ laterLines escape (delim st) rest)
                   (delim st) None (inTightList st) (options st).
Proof.
  intros s escape st.
  destruct (splitLines_join s) as (first & rest & E & J).
  exists first, rest. split; [exact E|]. split; [exact J|].
  now apply text_lines.
Qed.

(** X8. With an empty prefix and nothing pending, unescaped [text]
    appends the string to the buffer character for character, line
    breaks included. *)
Theorem text_raw_verbatim :
  forall (s : string) (st : MarkdownSerializer),
    delim st = "" -> closed st = None ->
    out (text s false st) = out st ++ s.
Proof.
  intros s st D C.
  destruct (splitLines_join s) as (first & rest & E & J).
  rewrite (text_lines s false st first rest E). simpl out.
  assert (W : write None st = st).
  { unfold write. rewrite (flushClose_none None st C), D. reflexivity. }
  rewrite W, D. now rewrite J.
Qed.

Lemma text_raw_verbatim_witness :
  out (text ("a*b" ++ nl ++ "# c") false (mkState "x" "" None false (mkOptions None)))
  = "x" ++ "a*b" ++ nl ++ "# c".
Proof.
  apply (text_raw_verbatim ("a*b" ++ nl ++ "# c")
           (mkState "x" "" None false (mkOptions None))); reflexivity.
Defined.

Lemma text_stable (s : string) (escape : bool) (st : MarkdownSerializer) :
  Stable st (text s escape st).
Proof.
  destruct (splitLines_join s) as (first & rest & E & _).
  rewrite (text_lines s escape st first rest E).
  pose proof (write_stable None st) as (D & T & O & x & X).
  unfold Stable. simpl. repeat split.
  rewrite X, append_assoc. eexists. reflexivity.
Qed.

Lemma text_closed (s : string) (escape : bool) (st : MarkdownSerializer) :
  closed (text s escape st) = None.
Proof.
  destruct (splitLines_join s) as (first & rest & E & _).
  now rewrite (text_lines s escape st first rest E).
Qed.

(** ** The ambient state across rendering *)

(** Induction on a node with the property known for its children. *)
Lemma Node_induction (P : Node -> Prop) :
  (forall ty a children ms t,
      Forall P children -> P (mkNode ty a children ms t)) ->
  forall n, P n.
Proof.
  intros H. fix IH 1. intros [ty a children ms t]. apply H.
  induction children as [|c children IHc]; constructor; [apply IH | exact IHc].
Qed.

Lemma closeLoop_stable (k : nat) (st : MarkdownSerializer) (active : list Mark) :
  Stable st (fst (closeLoop k st active)).
Proof.
  revert st active. induction k as [|k IH]; intros st active; [apply Stable_refl|].
  simpl. destruct (pop active) as [[m active']|]; [|apply Stable_refl].
  eapply Stable_trans; [apply text_stable | apply IH].
Qed.

Lemma openLoop_stable (k : nat) (marks : list Mark)
      (st : MarkdownSerializer) (active : list Mark) :
  Stable st (fst (openLoop k marks st active)).
Proof.
  revert st active. induction k as [|k IH]; intros st active; [apply Stable_refl|].
  simpl. destruct (nth_error marks (List.length active)) as [add|];
    [|apply Stable_refl].
  eapply Stable_trans; [apply text_stable | apply IH].
Qed.

Section StableRenderers.

Variable r : Node -> MarkdownSerializer -> MarkdownSerializer.

Lemma renderContentWith_stable (children : list Node) (st : MarkdownSerializer) :
  Forall (StableOn r) children -> Stable st (renderContentWith r children st).
Proof.
  intros F. revert st. induction F as [|c children Hc F IH]; intros st; simpl.
  - apply Stable_refl.
  - eapply Stable_trans; [apply Hc | apply IH].
Qed.

Lemma progressWith_stable (node : option Node)
      (st : MarkdownSerializer) (active : list Mark) :
  (forall n, node = Some n -> StableOn r n) ->
  Stable st (fst (progressWith r node st active)).
Proof.
  intros H. unfold progressWith.
  set (marks := match node with Some n => nodeMarks n | None => [] end).
  set (len := List.length marks
              - match codeMark marks with Some _ => 1 | None => 0 end).
  set (marks' := reorderLoop len 0 len active marks).
  set (keep := keepLoop (Nat.min (List.length active) len) 0 marks' active).
  pose proof (closeLoop_stable (List.length active - keep) st active) as S1.
  destruct (closeLoop (List.length active - keep) st active) as [st1 a1].
  pose proof (openLoop_stable (len - List.length a1) marks' st1 a1) as S2.
  destruct (openLoop (len - List.length a1) marks' st1 a1) as [st2 a2].
  simpl in S1, S2.
  assert (S12 : Stable st st2) by (eapply Stable_trans; eassumption).
  destruct node as [n|]; [|exact S12].
  assert (Sn : Stable st (r n st2)).
  { eapply Stable_trans; [exact S12 | apply (H n eq_refl)]. }
  destruct (codeMark marks); [destruct (isText n)|]; simpl; try exact Sn.
  eapply Stable_trans; [exact S12 | apply text_stable].
Qed.

Lemma inlineLoopWith_stable (children : list Node)
      (st : MarkdownSerializer) (active : list Mark) :
  Forall (StableOn r) children ->
  Stable st (fst (inlineLoopWith r children st active)).
Proof.
  intros F. revert st active.
  induction F as [|c children Hc F IH]; intros st active; simpl.
  - apply Stable_refl.
  - pose proof (progressWith_stable (Some c) st active) as S1.
    destruct (progressWith r (Some c) st active) as [st1 a1]. simpl in S1.
    eapply Stable_trans; [|apply IH].
    apply S1. intros n E. now inversion E; subst.
Qed.

Lemma renderInlineWith_stable (children : list Node) (st : MarkdownSerializer) :
  Forall (StableOn r) children -> Stable st (renderInlineWith r children st).
Proof.
  intros F. unfold renderInlineWith.
  pose proof (inlineLoopWith_stable children st [] F) as S1.
  destruct (inlineLoopWith r children st []) as [st1 a1]. simpl in S1.
  eapply Stable_trans; [exact S1|].
  apply progressWith_stable. intros n E. discriminate E.
Qed.

Lemma wrapBlock_stable (d : string) (fd : option string) (node : Node)
      (f : MarkdownSerializer -> MarkdownSerializer) (st : MarkdownSerializer) :
  (forall s, Stable s (f s)) -> Stable st (wrapBlock d fd node f st).
Proof.
  intros Hf. unfold wrapBlock.
  pose proof (write_stable (Some (orElse fd d)) st) as (D1 & T1 & O1 & x & X1).
  set (st1 := write (Some (orElse fd d)) st) in *.
  pose proof (Hf (setDelim (delim st1 ++ d) st1)) as (D2 & T2 & O2 & y & X2).
  set (st3 := f (setDelim (delim st1 ++ d) st1)) in *.
  simpl in T2, O2, X2.
  unfold Stable. simpl. repeat split; try congruence.
  exists (x ++ y). now rewrite X2, X1, append_assoc.
Qed.

Lemma listItemsWith_stable (node : Node) (d : string) (fd : nat -> string)
      (items : list Node) (i : nat) (st : MarkdownSerializer) :
  Forall (StableOn r) items -> Stable st (listItemsWith r node d fd items i st).
Proof.
  intros F. revert i st.
  induction F as [|c items Hc F IH]; intros i st; simpl.
  - apply Stable_refl.
  - eapply Stable_trans; [|apply IH].
    eapply Stable_trans; [|apply wrapBlock_stable; exact Hc].
    destruct (negb (i =? 0)%nat && tight (nodeAttrs node));
      [apply flushClose_stable | apply Stable_refl].
Qed.

Lemma listSeparation_stable (node : Node) (st : MarkdownSerializer) :
  Stable st (listSeparation node st).
Proof.
  unfold listSeparation.
  destruct (closed st) as [c|];
    [destruct (nodeTypeEqb (nodeType c) (nodeType node))|];
    try destruct (inTightList st);
    try apply flushClose_stable; apply Stable_refl.
Qed.

Lemma renderListWith_stable (node : Node) (items : list Node) (d : string)
      (fd : nat -> string) (st : MarkdownSerializer) :
  Forall (StableOn r) items -> Stable st (renderListWith r node items d fd st).
Proof.
  intros F. unfold renderListWith.
  pose proof (listSeparation_stable node st) as (D1 & T1 & O1 & x & X1).
  set (st1 := listSeparation node st) in *.
  pose proof (listItemsWith_stable node d fd items 0
                (setInTightList (tight (nodeAttrs node)) st1) F)
    as (D2 & T2 & O2 & y & X2).
  simpl in D2, O2, X2.
  unfold Stable. simpl. repeat split; try congruence.
  exists (x ++ y). now rewrite X2, X1, append_assoc.
Qed.

End StableRenderers.

Lemma closeBlock_stable (node : Node) (st : MarkdownSerializer) :
  Stable st (closeBlock node st).
Proof. apply Stable_setClosed. Qed.

Lemma ensureNewLine_stable (st : MarkdownSerializer) : Stable st (ensureNewLine st).
Proof.
  unfold ensureNewLine. destruct (atBlank st); [apply Stable_refl | apply Stable_emit].
Qed.

Lemma render_stable (n : Node) : forall st, Stable st (render n st).
Proof.
  induction n as [ty a children ms t F] using Node_induction. intros st.
  destruct ty; cbn [render].
  - apply text_stable.
  - apply wrapBlock_stable. intros s. now apply renderContentWith_stable.
  - now apply renderListWith_stable.
  - now apply renderListWith_stable.
  - now apply renderContentWith_stable.
  - eapply Stable_trans; [|apply closeBlock_stable]. apply write_stable.
  - eapply Stable_trans; [|apply closeBlock_stable].
    now apply renderInlineWith_stable.
  - eapply Stable_trans; [|apply closeBlock_stable].
    eapply Stable_trans; [|now apply renderInlineWith_stable].
    apply write_stable.
  - destruct (params a) as [p|].
    + eapply Stable_trans; [|apply closeBlock_stable].
      eapply Stable_trans; [|apply write_stable].
      eapply Stable_trans; [|apply ensureNewLine_stable].
      eapply Stable_trans; [|apply text_stable].
      apply write_stable.
    + apply wrapBlock_stable. intros s. apply text_stable.
  - apply write_stable.
  - apply write_stable.
Qed.

(** X9. Rendering a node, whatever its kind and content, returns with the
    line prefix, the tight-list flag and the options it was entered with:
    every prefix pushed by [wrapBlock] and every flag set by [renderList]
    is restored. The same holds for rendering a sequence of blocks. *)
Theorem render_restores_ambient_state :
  forall (n : Node) (children : list Node) (st : MarkdownSerializer),
    (delim (render n st) = delim st
     /\ inTightList (render n st) = inTightList st
     /\ options (render n st) = options st)
    /\ (delim (renderContent children st) = delim st
        /\ inTightList (renderContent children st) = inTightList st
        /\ options (renderContent children st) = options st).
Proof.
  intros n children st. split.
  - destruct (render_stable n st) as (D & T & O & _). auto.
  - assert (S : Stable st (renderContent children st)).
    { apply renderContentWith_stable. apply Forall_forall.
      intros c _ s. apply render_stable. }
    destruct S as (D & T & O & _). auto.
Qed.

(** X10. Rendering only appends: the buffer after rendering a node, or a
    sequence of blocks, starts with the buffer before it. Nothing that
    was written is removed or changed. *)
Theorem render_only_appends :
  forall (n : Node) (children : list Node) (st : MarkdownSerializer),
    (exists suffix, out (render n st) = out st ++ suffix)
    /\ (exists suffix, out (renderContent children st) = out st ++ suffix).
Proof.
  intros n children st. split.
  - destruct (render_stable n st) as (_ & _ & _ & X). exact X.
  - assert (S : Stable st (renderContent children st)).
    { apply renderContentWith_stable. apply Forall_forall.
      intros c _ s. apply render_stable. }
    destruct S as (_ & _ & _ & X). exact X.
Qed.

(** X11. Every block renderer ends by recording its node as closed: after
    a paragraph, heading, horizontal rule, code block or block quote, and
    after a list with at least one item, that node is pending. An inline
    node (text, image, hard break) leaves nothing pending. *)
Theorem block_renderers_leave_node_pending :
  forall (n : Node) (st : MarkdownSerializer),
    (match nodeType n with
     | Paragraph | Heading | HorizontalRule | CodeBlock | BlockQuote => True
     | _ => False
     end -> closed (render n st) = Some n)
    /\ (isListType (nodeType n) = true -> nodeContent n <> [] ->
        closed (render n st) = Some n)
    /\ (match nodeType n with
        | Text | Image | HardBreak => True
        | _ => False
        end -> closed (render n st) = None).
Proof.
  intros n st. split; [|split].
  - destruct n as [ty a children ms t].
    destruct ty; cbn [nodeType render]; try contradiction;
      intros _; try reflexivity.
    destruct (params a); reflexivity.
  - apply render_list_closed.
  - destruct n as [ty a children ms t].
    destruct ty; cbn [nodeType render]; try contradiction; intros _.
    + apply text_closed.
    + apply write_closed.
    + apply write_closed.
Qed.

Lemma block_renderers_leave_node_pending_witness :
  closed (render paraX (newSerializer None)) = Some paraX
  /\ closed (render listA (newSerializer None)) = Some listA
  /\ closed (render (txt "x" []) (newSerializer None)) = None.
Proof.
  pose proof (block_renderers_leave_node_pending paraX (newSerializer None))
    as (H1 & _ & _).
  pose proof (block_renderers_leave_node_pending listA (newSerializer None))
    as (_ & H2 & _).
  pose proof (block_renderers_leave_node_pending (txt "x" []) (newSerializer None))
    as (_ & _ & H3).
  split; [exact (H1 I)|]. split; [apply H2; [reflexivity | discriminate]|].
  exact (H3 I).
Defined.

Lemma progress_unmarked (n : Node) (st : MarkdownSerializer) :
  nodeMarks n = [] -> progress (Some n) st [] = (render n st, []).
Proof. intros H. unfold progress, progressWith. rewrite H. reflexivity. Qed.

Lemma inlineLoop_unmarked (children : list Node) (st : MarkdownSerializer) :
  Forall (fun c => nodeMarks c = []) children ->
  inlineLoop children st [] = (renderContent children st, []).
Proof.
  intros F. revert st. induction F as [|c children Hc F IH]; intros st.
  - reflexivity.
  - change (inlineLoop (c :: children) st [])
      with (let '(st', active') := progress (Some c) st [] in
            inlineLoop children st' active').
    rewrite (progress_unmarked c st Hc). apply IH.
Qed.

Lemma renderInline_no_marks (children : list Node) (st : MarkdownSerializer) :
  Forall (fun c => nodeMarks c = []) children ->
  renderInline children st = renderContent children st.
Proof.
  intros F.
  change (renderInline children st)
    with (let '(st', active') := inlineLoop children st [] in
          fst (progress None st' active')).
  now rewrite (inlineLoop_unmarked children st F).
Qed.

(** X12. For children that carry no marks the inline renderer opens and
    closes nothing: [renderInline] renders them one after the other,
    exactly as [renderContent] does. With no children it leaves the state
    as it is. *)
Theorem renderInline_unmarked :
  forall (children : list Node) (st : MarkdownSerializer),
    Forall (fun c => nodeMarks c = []) children ->
    renderInline children st = renderContent children st.
Proof.
  intros children st F. now apply renderInline_no_marks.
Qed.

Lemma renderInline_unmarked_witness :
  renderInline [txt "a" []; txt "b" []] (newSerializer None)
  = renderContent [txt "a" []; txt "b" []] (newSerializer None)
  /\ renderInline [] (newSerializer None) = newSerializer None.
Proof.
  split.
  - apply (renderInline_unmarked [txt "a" []; txt "b" []] (newSerializer None)).
    repeat constructor.
  - exact (renderInline_unmarked [] (newSerializer None) (Forall_nil _)).
Defined.

(** ** The active stack after a step *)

Lemma firstn_split {A : Type} (a b : nat) (l : list A) :
  a <= b -> firstn b l = (firstn a l ++ firstn (b - a) (skipn a l))%list.
Proof.
  revert b l. induction a as [|a IH]; intros b l H.
  - now rewrite Nat.sub_0_r.
  - destruct b as [|b]; [lia|]. destruct l as [|x l].
    + simpl. now rewrite firstn_nil.
    + simpl. f_equal. apply IH. lia.
Qed.

Lemma firstn_succ_nth {A : Type} (l : list A) (k : nat) (x : A) :
  nth_error l k = Some x -> firstn (S k) l = (firstn k l ++ [x])%list.
Proof.
  revert k. induction l as [|y l IH]; intros [|k] H; simpl in *; try discriminate.
  - now inversion H.
  - f_equal. now apply IH.
Qed.

Lemma keepLoop_match (k keep : nat) (marks active : list Mark) :
  Forall2 sameMark (firstn keep active) (firstn keep marks) ->
  Forall2 sameMark (firstn (keepLoop k keep marks active) active)
                   (firstn (keepLoop k keep marks active) marks).
Proof.
  revert keep. induction k as [|k IH]; intros keep H; simpl; [exact H|].
  destruct (nth_error marks keep) as [m|] eqn:Em; [|exact H].
  destruct (nth_error active keep) as [a|] eqn:Ea; [|exact H].
  destruct (markEq m a) eqn:E; [|exact H].
  apply IH. rewrite (firstn_succ_nth active keep a Ea),
                    (firstn_succ_nth marks keep m Em).
  apply Forall2_app; [exact H|]. constructor; [exact E | constructor].
Qed.

Lemma Forall2_sameMark_refl (l : list Mark) : Forall2 sameMark l l.
Proof. induction l; constructor; [apply markEq_refl | assumption]. Qed.

(** X13. After a step of the inline renderer the active stack holds as
    many marks as the node has marks outside a final code mark (none
    after the step without a node), and, position by position, each
    active mark equals the mark at that position of the node's reordered
    mark list. *)
Theorem active_stack_matches_node_marks :
  forall (node : option Node) (st : MarkdownSerializer) (active : list Mark),
    List.length (snd (progress node st active)) = markLen (marksOf node)
    /\ Forall2 sameMark (snd (progress node st active))
                        (firstn (markLen (marksOf node)) (reordered node active)).
Proof.
  intros node st active. rewrite progress_events. simpl snd.
  destruct (keepOf_bound node active) as [K1 K2].
  pose proof (reordered_length node active) as RL.
  unfold nextActive, openedMarks. split.
  - rewrite length_app, length_firstn, slice_length. lia.
  - rewrite (firstn_split (keepOf node active) (markLen (marksOf node))
                          (reordered node active) K2).
    apply Forall2_app.
    + unfold keepOf. apply keepLoop_match. constructor.
    + apply Forall2_sameMark_refl.
Qed.

(** ** The reordering pass permutes *)

Lemma skipn_skipn {A : Type} (a b : nat) (l : list A) :
  skipn a (skipn b l) = skipn (b + a) l.
Proof.
  revert l. induction b as [|b IH]; intros l; [reflexivity|].
  destruct l as [|x l]; [now rewrite !skipn_nil|]. simpl. apply IH.
Qed.

Lemma slice_app {A : Type} (a b c : nat) (l : list A) :
  a <= b -> b <= c -> (slice a b l ++ slice b c l)%list = slice a c l.
Proof.
  intros H1 H2. unfold slice.
  rewrite (firstn_split (b - a) (c - a) (skipn a l)) by lia.
  rewrite skipn_skipn.
  replace (c - a - (b - a)) with (c - b) by lia.
  now replace (a + (b - a)) with b by lia.
Qed.

Lemma slice_single {A : Type} (i : nat) (l : list A) (x : A) :
  nth_error l i = Some x -> slice i (i + 1) l = [x].
Proof.
  intros H. unfold slice. replace (i + 1 - i) with 1 by lia.
  now rewrite (skipn_nth_error l i x H).
Qed.

Lemma slice_from_start {A : Type} (n : nat) (l : list A) : slice 0 n l = firstn n l.
Proof. unfold slice. now rewrite Nat.sub_0_r. Qed.

Lemma moveMark_exact_length (marks : list Mark) (mark : Mark) (i j len : nat) :
  i < len -> j < len -> i <> j -> len <= List.length marks ->
  List.length (moveMark marks mark i j len) = len.
Proof.
  intros Hi Hj Hij Hlen. unfold moveMark.
  destruct (Nat.ltb_spec j i); [|destruct (Nat.ltb_spec i j); [|lia]];
    rewrite !length_app, !slice_length; simpl; lia.
Qed.

Lemma moveMark_perm (marks : list Mark) (mark : Mark) (i j len : nat) :
  i < len -> j < len -> len <= List.length marks ->
  nth_error marks i = Some mark ->
  Permutation (firstn len (moveMark marks mark i j len)) (firstn len marks).
Proof.
  intros Hi Hj Hlen E.
  destruct (Nat.eq_dec i j) as [->|Hij].
  { unfold moveMark. rewrite Nat.ltb_irrefl. apply Permutation_refl. }
  rewrite firstn_all2
    by (rewrite (moveMark_exact_length marks mark i j len) by assumption; lia).
  rewrite <- (slice_from_start len marks).
  unfold moveMark.
  destruct (Nat.ltb_spec j i) as [L|L].
  - rewrite <- (slice_app 0 j len marks) by lia.
    rewrite <- (slice_app j i len marks) by lia.
    rewrite <- (slice_app i (i + 1) len marks) by lia.
    rewrite (slice_single i marks mark E).
    apply Permutation_app_head. simpl.
    apply Permutation_middle.
  - destruct (Nat.ltb_spec i j) as [L'|L']; [|lia].
    rewrite <- (slice_app 0 i len marks) by lia.
    rewrite <- (slice_app i (i + 1) len marks) by lia.
    rewrite <- (slice_app (i + 1) j len marks) by lia.
    rewrite (slice_single i marks mark E).
    apply Permutation_app_head. simpl.
    apply Permutation_sym, Permutation_middle.
Qed.

Lemma findActive_bound (mark : Mark) (active : list Mark) (j0 j : nat) :
  findActive mark active j0 = Some j -> j < j0 + List.length active.
Proof.
  revert j0. induction active as [|a active IH]; intros j0 H; simpl in *;
    [discriminate|].
  destruct (negb (markdownMixable (markType a))); [discriminate|].
  destruct (markEq mark a).
  - inversion H. lia.
  - apply IH in H. lia.
Qed.

Lemma reorderLoop_perm (k i len : nat) (active marks : list Mark) :
  i + k = len -> len <= List.length marks -> List.length active <= len ->
  Permutation (firstn len (reorderLoop k i len active marks)) (firstn len marks).
Proof.
  revert i marks. induction k as [|k IH]; intros i marks E Hlen Ha;
    [apply Permutation_refl|].
  simpl. destruct (nth_error marks i) as [mark|] eqn:Em; [|apply Permutation_refl].
  destruct (negb (markdownMixable (markType mark))); [apply Permutation_refl|].
  destruct (findActive mark active 0) as [j|] eqn:Ef.
  - apply findActive_bound in Ef. simpl in Ef.
    eapply Permutation_trans.
    + apply IH; [lia | apply moveMark_length; lia | exact Ha].
    + apply moveMark_perm; [lia | lia | exact Hlen | exact Em].
  - apply IH; [lia | exact Hlen | exact Ha].
Qed.

(** X14. When the active stack is no longer than the node's mark list
    (final code mark left out), the reordering pass only permutes: the
    marks it hands on are the node's own marks, each once, in another
    order. *)
Theorem reordering_pass_permutes :
  forall (node : option Node) (active : list Mark),
    List.length active <= markLen (marksOf node) ->
    Permutation (firstn (markLen (marksOf node)) (reordered node active))
                (firstn (markLen (marksOf node)) (marksOf node)).
Proof.
  intros node active H. unfold reordered.
  apply reorderLoop_perm; [lia | apply markLen_le | exact H].
Qed.

Lemma reordering_pass_permutes_witness :
  Permutation
    (firstn 2 (reordered (Some (txt "b" [em; strong; code])) [strong; em]))
    [em; strong].
Proof.
  exact (reordering_pass_permutes (Some (txt "b" [em; strong; code]))
           [strong; em] (le_n 2)).
Defined.

(** With a longer active stack the pass can move the code mark into the
    marks to open and drop a mark of the node. *)
Lemma reordering_pass_with_longer_stack :
  reordered (Some (txt "b" [em; code])) [strong; underline; em] = [code; em]
  /\ openedMarks (Some (txt "b" [em; code])) [strong; underline; em] = [code].
Proof. split; reflexivity. Qed.

(** ** Blocks as they come out *)

Lemma lacksChar_app (c : ascii) (a b : string) :
  lacksChar c (a ++ b) = lacksChar c a && lacksChar c b.
Proof.
  induction a as [|x a IH]; [reflexivity|].
  cbn [append lacksChar]. now rewrite IH, andb_assoc.
Qed.

Lemma escapeEach_lacks_LF (s : string) :
  lacksChar LF s = true -> lacksChar LF (escapeEach s) = true.
Proof.
  induction s as [|c s IH]; [reflexivity|].
  cbn [lacksChar escapeEach]. intros H. apply andb_true_iff in H as [H1 H2].
  rewrite lacksChar_app. cbn [lacksChar]. rewrite H1, (IH H2).
  now destruct (isMarkdownSpecial c).
Qed.

Lemma esc_lacks_LF (s : string) (b : bool) :
  lacksChar LF s = true -> lacksChar LF (esc s b) = true.
Proof.
  intros H. rewrite esc_escapeEach, lacksChar_app, (escapeEach_lacks_LF s H).
  now destruct (b && startsLineSpecial s).
Qed.

Lemma esc_nonempty (s : string) (b : bool) : s <> "" -> esc s b <> "".
Proof.
  intros H. rewrite esc_escapeEach. apply append_nonempty_r.
  destruct s as [|c s]; [congruence|]. cbn [escapeEach].
  apply append_nonempty_r. discriminate.
Qed.

Lemma endsBlank_app (a b : string) : b <> "" -> endsBlank (a ++ b) = endsBlank b.
Proof.
  intros H. induction a as [|x a IH]; [reflexivity|].
  cbn [append endsBlank]. rewrite IH.
  destruct (a ++ b) eqn:E; [|reflexivity].
  destruct a; [simpl in E; congruence | discriminate].
Qed.

Lemma endsBlank_lacks_LF (b : string) :
  b <> "" -> lacksChar LF b = true -> endsBlank b = false.
Proof.
  induction b as [|c b IH]; intros N L; [congruence|].
  cbn [lacksChar] in L. apply andb_true_iff in L as [L1 L2].
  apply negb_true_iff in L1. rewrite Ascii.eqb_sym in L1.
  destruct b as [|d b]; [exact L1|].
  change (endsBlank (String c (String d b))) with (endsBlank (String d b)).
  apply IH; [discriminate | exact L2].
Qed.

Lemma endsBlank_app_line (a b : string) :
  b <> "" -> lacksChar LF b = true -> endsBlank (a ++ b) = false.
Proof.
  intros N L. rewrite (endsBlank_app a b N). now apply endsBlank_lacks_LF.
Qed.

Lemma text_one_line (s : string) (escape : bool) (st : MarkdownSerializer) :
  lacksChar LF s = true ->
  text s escape st
  = mkState (out (write None st) ++ lineOut escape (atBlank st || pending st) s)
            (delim st) None (inTightList st) (options st).
Proof.
  intros L.
  rewrite (text_lines s escape st s [] (splitLines_single s L)).
  cbn [laterLines]. now rewrite append_nil_r.
Qed.

Lemma write_none_pending (st : MarkdownSerializer) (c : Node) :
  closed st = Some c ->
  out (write None st)
  = lineBreakEnsured (out st) ++ trimmedDelim (delim st) ++ nl ++ delim st.
Proof.
  intros C. destruct st as [o d cl tl opts]. simpl in C. subst cl.
  unfold write. rewrite flushClose_some. simpl delim. unfold atBlank. simpl out.
  change (repeat (trimmedDelim d ++ nl) (sizeOrDefault None - 1))
    with ("" ++ trimmedDelim d ++ nl).
  cbn [append]. rewrite <- append_assoc, endsBlank_nl, andb_true_r.
  destruct (String.eqb_spec d ""); simpl.
  - subst d. rewrite ?append_assoc, ?append_nil_r. reflexivity.
  - now rewrite !append_assoc.
Qed.

Lemma render_plain_paragraph (s : string) (st : MarkdownSerializer) :
  render (para [txt s []]) st = closeBlock (para [txt s []]) (text s true st).
Proof.
  change (render (para [txt s []]) st)
    with (closeBlock (para [txt s []]) (renderInline [txt s []] st)).
  rewrite renderInline_no_marks by (repeat constructor). reflexivity.
Qed.

(** X15. Two paragraphs of one-line text rendered one after the other
    are separated by exactly one blank line, which holds the current
    prefix without its trailing whitespace; the second paragraph starts
    after the prefix and is escaped as the start of a line. *)
Theorem paragraphs_separated_by_blank_line :
  forall (s1 s2 : string) (st : MarkdownSerializer),
    lacksChar LF s1 = true -> lacksChar LF s2 = true -> s1 <> "" ->
    out (renderContent [para [txt s1 []]; para [txt s2 []]] st)
    = out (write None st) ++ esc s1 (atBlank st || pending st)
      ++ nl ++ trimmedDelim (delim st) ++ nl ++ delim st ++ esc s2 true.
Proof.
  intros s1 s2 st L1 L2 N1.
  change (renderContent [para [txt s1 []]; para [txt s2 []]] st)
    with (render (para [txt s2 []]) (render (para [txt s1 []]) st)).
  rewrite !render_plain_paragraph.
  rewrite (text_one_line s1 true st L1).
  set (O1 := out (write None st) ++ lineOut true (atBlank st || pending st) s1).
  set (st1 := closeBlock (para [txt s1 []])
                (mkState O1 (delim st) None (inTightList st) (options st))).
  rewrite (text_one_line s2 true st1 L2). simpl out.
  rewrite (write_none_pending st1 (para [txt s1 []]) eq_refl).
  change (pending st1) with true. rewrite orb_true_r.
  change (out st1) with O1. change (delim st1) with (delim st).
  assert (B : endsBlank O1 = false).
  { unfold O1, lineOut. apply endsBlank_app_line;
      [now apply esc_nonempty | now apply esc_lacks_LF]. }
  unfold lineBreakEnsured. rewrite B. unfold O1, lineOut.
  now rewrite !append_assoc.
Qed.

Lemma paragraphs_separated_by_blank_line_witness :
  out (renderContent [para [txt "a" []]; para [txt "- b" []]]
         (mkState "" "> " None false (mkOptions None)))
  = "> a" ++ nl ++ ">" ++ nl ++ "> \- b".
Proof.
  exact (eq_trans
           (paragraphs_separated_by_blank_line "a" "- b"
              (mkState "" "> " None false (mkOptions None))
              eq_refl eq_refl ltac:(discriminate))
           eq_refl).
Defined.

Lemma write_some_plain (s : string) (st : MarkdownSerializer) :
  s <> "" -> delim st = "" -> closed st = None ->
  write (Some s) st = emit s st.
Proof.
  intros N D C. rewrite (write_some s st N).
  unfold write. rewrite (flushClose_none None st C), D. reflexivity.
Qed.

(** X16. A code block with an info string, even an empty one, is
    fenced. At the top level (empty prefix, nothing pending) it comes
    out as the opening fence with the info string, a line break, the
    text content character for character, a line break unless the
    buffer already ends with one (so none after empty content or after
    content that ends with a line break), and the closing fence; the
    block is then pending. *)
Theorem fenced_code_block_output :
  forall (a : NodeAttrs) (children : list Node) (ms : list Mark) (t p : string)
         (st : MarkdownSerializer),
    params a = Some p -> delim st = "" -> closed st = None ->
    render (mkNode CodeBlock a children ms t) st
    = mkState (lineBreakEnsured
                 (out st ++ "```" ++ p ++ nl
                  ++ textContent (mkNode CodeBlock a children ms t))
               ++ "```")
              "" (Some (mkNode CodeBlock a children ms t))
              (inTightList st) (options st).
Proof.
  intros a children ms t p st P D C.
  set (n := mkNode CodeBlock a children ms t).
  change (render n st)
    with (match params a with
          | None => wrapBlock "    " None n (text (textContent n) false) st
          | Some p =>
              closeBlock n (write (Some "```")
                 (ensureNewLine (text (textContent n) false
                    (write (Some ("```" ++ p ++ nl)) st))))
          end).
  rewrite P.
  rewrite (write_some_plain ("```" ++ p ++ nl) st) by (assumption || discriminate).
  destruct (splitLines_join (textContent n)) as (first & rest & E & J).
  rewrite (text_lines _ false _ first rest E).
  assert (W : write None (emit ("```" ++ p ++ nl) st) = emit ("```" ++ p ++ nl) st).
  { unfold write. rewrite flushClose_none by exact C.
    change (delim (emit ("```" ++ p ++ nl) st)) with (delim st).
    rewrite D. reflexivity. }
  rewrite W. change (delim (emit ("```" ++ p ++ nl) st)) with (delim st).
  rewrite D.
  change (lineOut false (atBlank (emit ("```" ++ p ++ nl) st)
                         || pending (emit ("```" ++ p ++ nl) st)) first)
    with first.
  rewrite J.
  set (O := out (emit ("```" ++ p ++ nl) st) ++ textContent n).
  assert (EN : ensureNewLine
                 (mkState O "" None (inTightList (emit ("```" ++ p ++ nl) st))
                          (options (emit ("```" ++ p ++ nl) st)))
               = mkState (lineBreakEnsured O) "" None (inTightList st) (options st)).
  { unfold ensureNewLine, atBlank, lineBreakEnsured. simpl.
    destruct (endsBlank O); reflexivity. }
  rewrite EN.
  rewrite write_some_plain by (reflexivity || discriminate).
  unfold closeBlock, emit, setClosed, setOut.
  cbn [out delim closed inTightList options].
  unfold O, emit, setOut. cbn [out]. now rewrite !append_assoc.
Qed.

Lemma fenced_code_block_output_witness :
  out (render (mkNode CodeBlock
                 (mkNodeAttrs 0 false (Some "") None None None "" None None)
                 [txt ("x*" ++ nl ++ "# y") []] [] "")
         (newSerializer None))
  = "```" ++ nl ++ "x*" ++ nl ++ "# y" ++ nl ++ "```".
Proof.
  exact (eq_trans
           (f_equal out
              (fenced_code_block_output
                 (mkNodeAttrs 0 false (Some "") None None None "" None None)
                 [txt ("x*" ++ nl ++ "# y") []] [] "" "" (newSerializer None)
                 eq_refl eq_refl eq_refl))
           eq_refl).
Defined.

(** X17. A code block without an info string is indented. At the top
    level every line of its text content, empty lines included, comes
    out behind four spaces, unescaped; the prefix is the outer one again
    afterwards and the block is pending. *)
Theorem indented_code_block_output :
  forall (a : NodeAttrs) (children : list Node) (ms : list Mark) (t : string)
         (st : MarkdownSerializer),
    params a = None -> delim st = "" -> closed st = None ->
    exists first rest,
      splitLines (textContent (mkNode CodeBlock a children ms t)) = first :: rest
      /\ render (mkNode CodeBlock a children ms t) st
         = mkState (out st ++ "    " ++ first ++ laterLines false "    " rest)
                   "" (Some (mkNode CodeBlock a children ms t))
                   (inTightList st) (options st).
Proof.
  intros a children ms t st P D C.
  set (n := mkNode CodeBlock a children ms t).
  destruct (splitLines_join (textContent n)) as (first & rest & E & _).
  exists first, rest. split; [exact E|].
  change (render n st)
    with (match params a with
          | None => wrapBlock "    " None n (text (textContent n) false) st
          | Some p =>
              closeBlock n (write (Some "```")
                 (ensureNewLine (text (textContent n) false
                    (write (Some ("```" ++ p ++ nl)) st))))
          end).
  rewrite P. unfold wrapBlock.
  change (orElse None "    ") with "    ".
  rewrite (write_some_plain "    " st) by (assumption || discriminate).
  change (delim (emit "    " st)) with (delim st). rewrite D.
  set (st2 := setDelim ("" ++ "    ") (emit "    " st)).
  rewrite (text_lines _ false st2 first rest E).
  assert (B : atBlank st2 = false).
  { unfold st2, atBlank, emit, setDelim, setOut. simpl out.
    apply endsBlank_app_line; [discriminate | reflexivity]. }
  assert (W : write None st2 = st2).
  { apply write_none_midline; [exact B | exact C]. }
  rewrite W. unfold closeBlock, setClosed, setDelim. simpl.
  unfold lineOut. now rewrite !append_assoc.
Qed.

Lemma indented_code_block_output_witness :
  out (render (mkNode CodeBlock noAttrs [txt ("a" ++ nl ++ nl ++ "b") []] [] "")
         (newSerializer None))
  = "    a" ++ nl ++ "    " ++ nl ++ "    b".
Proof.
  destruct (indented_code_block_output noAttrs [txt ("a" ++ nl ++ nl ++ "b") []]
              [] "" (newSerializer None) eq_refl eq_refl eq_refl)
    as (first & rest & E & R).
  rewrite R. simpl out.
  change (splitLines (textContent
            (mkNode CodeBlock noAttrs [txt ("a" ++ nl ++ nl ++ "b") []] [] "")))
    with ["a"; ""; "b"] in E.
  inversion E; subst. reflexivity.
Defined.

Lemma emit_midline (x : string) (st : MarkdownSerializer) :
  x <> "" -> lacksChar LF x = true -> closed st = None ->
  atBlank (emit x st) = false /\ write None (emit x st) = emit x st.
Proof.
  intros N L C.
  assert (B : atBlank (emit x st) = false).
  { unfold atBlank, emit, setOut. simpl out. now apply endsBlank_app_line. }
  split; [exact B|]. apply write_none_midline; [exact B | exact C].
Qed.

Lemma repeat_lacks_LF (x : string) (n : nat) :
  lacksChar LF x = true -> lacksChar LF (repeat x n) = true.
Proof.
  intros H. induction n as [|n IH]; [reflexivity|].
  cbn [repeat]. now rewrite lacksChar_app, IH, H.
Qed.

(** X18. A heading holding one unmarked one-line text comes out, after
    whatever [write()] puts first, as [level] hash signs, a space and the
    text with only the always-special characters escaped: the text never
    counts as the start of a line. The prefix is unchanged and the
    heading is pending. *)
Theorem heading_output :
  forall (a : NodeAttrs) (ms : list Mark) (t s : string)
         (st : MarkdownSerializer),
    lacksChar LF s = true ->
    render (mkNode Heading a [txt s []] ms t) st
    = mkState (out (write None st) ++ repeat "#" (level a) ++ " " ++ escapeEach s)
              (delim st) (Some (mkNode Heading a [txt s []] ms t))
              (inTightList st) (options st).
Proof.
  intros a ms t s st L.
  set (n := mkNode Heading a [txt s []] ms t).
  set (h := repeat "#" (level a) ++ " ").
  change (render n st)
    with (closeBlock n (renderInline [txt s []] (write (Some h) st))).
  assert (Hn : h <> "") by (apply append_nonempty_r; discriminate).
  assert (Hl : lacksChar LF h = true).
  { unfold h. rewrite lacksChar_app, repeat_lacks_LF; reflexivity. }
  rewrite (write_some h st Hn).
  rewrite renderInline_no_marks by (repeat constructor).
  change (renderContent [txt s []] (emit h (write None st)))
    with (text s true (emit h (write None st))).
  destruct (emit_midline h (write None st) Hn Hl (write_closed None st)) as [B W].
  rewrite (text_one_line s true _ L), W, B.
  pose proof (write_stable None st) as (D & T & O & _).
  pose proof (write_closed None st) as C.
  change (pending (emit h (write None st))) with (pending (write None st)).
  unfold pending. rewrite C. cbn [orb]. unfold lineOut.
  rewrite esc_escapeEach. cbn [andb].
  change ("" ++ escapeEach s) with (escapeEach s).
  unfold closeBlock, setClosed, emit, setOut.
  cbn [out delim closed inTightList options]. rewrite D, T, O.
  unfold h. now rewrite !append_assoc.
Qed.

Lemma heading_output_witness :
  out (render (mkNode Heading
                 (mkNodeAttrs 2 false None None None None "" None None)
                 [txt "- Title*" []] [] "")
         (newSerializer None))
  = "## - Title\*".
Proof.
  exact (eq_trans
           (f_equal out
              (heading_output
                 (mkNodeAttrs 2 false None None None None "" None None)
                 [] "" "- Title*" (newSerializer None) eq_refl))
           eq_refl).
Defined.

(** X19. A block quote holding one paragraph of unmarked text puts the
    first line of the text on the line of the quote marker, escaped as
    the middle of a line (a leading hash, colon or hyphen is kept as it
    is), and every later line after a line break and the prefix extended
    by the quote marker, escaped as the start of a line. Afterwards the
    prefix is the outer one and the block quote is pending. *)
Theorem block_quote_paragraph_output :
  forall (a : NodeAttrs) (ms : list Mark) (t s : string)
         (st : MarkdownSerializer),
    exists first rest,
      splitLines s = first :: rest
      /\ render (mkNode BlockQuote a [para [txt s []]] ms t) st
         = mkState (out (write None st) ++ "> " ++ escapeEach first
                    ++ laterLines true (delim st ++ "> ") rest)
                   (delim st) (Some (mkNode BlockQuote a [para [txt s []]] ms t))
                   (inTightList st) (options st).
Proof.
  intros a ms t s st.
  destruct (splitLines_join s) as (first & rest & E & _).
  exists first, rest. split; [exact E|].
  set (n := mkNode BlockQuote a [para [txt s []]] ms t).
  change (render n st)
    with (wrapBlock "> " None n (renderContent [para [txt s []]]) st).
  unfold wrapBlock. change (orElse None "> ") with "> ".
  rewrite (write_some "> " st) by discriminate.
  destruct (emit_midline "> " (write None st) ltac:(discriminate) eq_refl
              (write_closed None st)) as [B W].
  pose proof (write_stable None st) as (D & T & O & _).
  pose proof (write_closed None st) as C.
  set (st1 := emit "> " (write None st)) in *.
  set (st2 := setDelim (delim st1 ++ "> ") st1).
  change (renderContent [para [txt s []]] st2)
    with (render (para [txt s []]) st2).
  rewrite render_plain_paragraph, (text_lines s true st2 first rest E).
  assert (W2 : write None st2 = st2).
  { apply write_none_midline; [exact B | exact C]. }
  rewrite W2.
  change (atBlank st2) with (atBlank st1). rewrite B.
  change (pending st2) with (pending (write None st)).
  unfold pending. rewrite C.
  cbn [orb]. unfold lineOut at 1. rewrite esc_escapeEach. cbn [andb].
  change ("" ++ escapeEach first) with (escapeEach first).
  unfold closeBlock, setClosed, setDelim, st2, setDelim, st1, emit, setOut.
  cbn [out delim closed inTightList options]. rewrite D, T, O.
  now rewrite !append_assoc.
Qed.

(** X20. A text run carrying only a link mark, when neither its text
    nor the closing markup of the link (so neither the address nor the
    title) holds a line break, is written as an opening bracket, the
    text escaped as the middle of a line, and the closing markup of the
    link: a closing bracket and, in parentheses, the escaped address
    followed by the quoted title when there is one. Nothing is left
    open or pending. *)
Theorem link_run_output :
  forall (s url : string) (ttl : option string) (st : MarkdownSerializer),
    lacksChar LF s = true ->
    lacksChar LF (linkClose (mkMarkAttrs url ttl)) = true ->
    renderInline [txt s [link url ttl]] st
    = mkState (out (write None st) ++ "[" ++ escapeEach s
               ++ "](" ++ esc url false
               ++ (if truthy ttl then " " ++ quote (orElse ttl "") else "")
               ++ ")")
              (delim st) None (inTightList st) (options st).
Proof.
  intros s url ttl st L Lc.
  change (renderInline [txt s [link url ttl]] st)
    with (text (linkClose (mkMarkAttrs url ttl)) false
               (text s true (text "[" false st))).
  pose proof (write_stable None st) as (D & T & O & _).
  pose proof (write_closed None st) as C.
  rewrite (text_one_line "[" false st eq_refl).
  set (O0 := out (write None st)) in *.
  change (lineOut false (atBlank st || pending st) "[") with "[".
  set (st1 := mkState (O0 ++ "[") (delim st) None (inTightList st) (options st)).
  assert (B1 : atBlank st1 = false).
  { unfold atBlank, st1. simpl out.
    apply endsBlank_app_line; [discriminate | reflexivity]. }
  assert (W1 : write None st1 = st1) by (now apply write_none_midline).
  rewrite (text_one_line s true st1 L), W1, B1.
  change (pending st1) with false. cbn [orb]. unfold lineOut at 1.
  rewrite esc_escapeEach. cbn [andb append].
  change (out st1) with (O0 ++ "["). change (delim st1) with (delim st).
  change (inTightList st1) with (inTightList st).
  change (options st1) with (options st).
  set (st2 := mkState ((O0 ++ "[") ++ escapeEach s) (delim st) None
                      (inTightList st) (options st)).
  assert (B2 : atBlank st2 = false).
  { unfold atBlank, st2. simpl out. rewrite append_assoc.
    apply endsBlank_app_line.
    - discriminate.
    - change ("[" ++ escapeEach s) with (String "[" (escapeEach s)).
      cbn [lacksChar]. now rewrite (escapeEach_lacks_LF s L). }
  assert (W2 : write None st2 = st2) by (now apply write_none_midline).
  rewrite (text_one_line _ false st2 Lc), W2.
  unfold lineOut, linkClose. cbn [href linkTitle]. unfold st2. simpl out.
  cbn [delim inTightList options]. now rewrite !append_assoc.
Qed.

Lemma link_run_output_witness :
  out (renderInline [txt "click" [link "http://x" None]] (newSerializer None))
  = "[click](http://x)".
Proof.
  exact (eq_trans
           (f_equal out
              (link_run_output "click" "http://x" None (newSerializer None)
                 eq_refl eq_refl))
           eq_refl).
Defined.

(** ** [repeat] *)

Lemma repeat_add (x : string) (n m : nat) :
  repeat x (n + m) = repeat x n ++ repeat x m.
Proof.
  induction m as [|m IH].
  - rewrite Nat.add_0_r. cbn [repeat]. now rewrite append_nil_r.
  - rewrite Nat.add_succ_r. cbn [repeat]. now rewrite IH, append_assoc.
Qed.

(** X21. [repeat(str, n)] is [n] copies of [str]: its length is [n]
    times the length of [str], it is empty for [n = 0], and repeating
    [n + m] times is repeating [n] times and then [m] times. *)
Theorem repeat_copies :
  forall (x : string) (n m : nat),
    String.length (repeat x n) = n * String.length x
    /\ repeat x 0 = ""
    /\ repeat x (n + m) = repeat x n ++ repeat x m.
Proof.
  intros x n m. split; [apply length_repeat|]. split; [reflexivity|].
  apply repeat_add.
Qed.
